(** * ASAP horizon search and Pareto-frontier reduction

    A shallow embedding of [src/utils/asap_helpers.py]: the dominance and
    uniqueness filters, the dichotomic horizon search, the backward sweep
    and the orchestrating [solve_asap], followed by the properties of the
    specification that concern them.

    Conventions of the embedding.
    - JSON integers (arrival timestamps, costs, unassigned counts, window
      bounds, status codes) are [Z].
    - A Python dictionary with a fixed set of keys is a record; a key that
      the code reads through [.get] or pops with a default, or that the
      specification marks as optional, is an optional field, and reading it
      by subscript when it is absent raises [KeyError].
    - A Python exception is a value of [exn]; a computation that may raise
      lives in the [result] monad.  The third outcome, [Timeout], marks a
      fuel-bounded loop that ran out of fuel and has no Python counterpart.
    - Lists mutated in place by index ([pop], item assignment) are stdpp
      lists with [delete] and [<[_:=_]>]; the state is passed explicitly.
    - The external solver [utils.vroom.solve], called with fixed command
      line arguments, is a section variable [solve : instance -> solution].
      Its result always has [routes] and a [summary] with a [cost], as the
      solver interface of the specification declares; the status code, the
      error message, the unassigned count and the timing diagnostics may be
      absent.
*)

From stdpp Require Import base tactics option list sorting gmap strings pretty.
From Stdlib Require Import ZArith Lia Ascii.

Local Open Scope Z_scope.

(** ** Exceptions and the result monad *)

Inductive exn : Type :=
  | KeyError (key : string)
  | IndexError
  | ValueError
  | OSError (errno : Z) (strerror : string).

Inductive result (A : Type) : Type :=
  | Ok (a : A)
  | Raise (e : exn)
  | Timeout.

Arguments Ok {A} a.
Arguments Raise {A} e.
Arguments Timeout {A}.

Definition rbind {A B} (m : result A) (k : A → result B) : result B :=
  match m with
  | Ok a => k a
  | Raise e => Raise e
  | Timeout => Timeout
  end.

Global Instance exn_eq_dec : EqDecision exn.
Proof. solve_decision. Defined.

Global Instance result_eq_dec {A} `{!EqDecision A} : EqDecision (result A).
Proof. solve_decision. Defined.

Global Instance result_bind : MBind result := λ A B k m, rbind m k.
Global Instance result_ret : MRet result := λ A a, Ok a.
Global Instance result_fmap : FMap result := λ A B f m, rbind m (λ a, Ok (f a)).

(** [[f(x) for x in l]]: the comprehension evaluates left to right and the
    first exception aborts it. *)
Fixpoint rmap {A B} (f : A → result B) (l : list A) : result (list B) :=
  match l with
  | [] => Ok []
  | x :: l' => y ← f x ; ys ← rmap f l' ; Ok (y :: ys)
  end.

(** ** Data model *)

Record step := { arrival : Z; step_other : string }.

Record route := { steps : list step; route_other : string }.

Inductive origin_tag := Initial | Dichotomy | BackwardSearch.

Record summary_t := {
  cost : Z;
  unassigned : option Z;
  computing_times : option string
}.

Record solution := {
  code : option Z;
  error : option string;
  routes : list route;
  summary : summary_t;
  origin : option origin_tag
}.

Record vehicle := { time_window : option (list Z); vehicle_other : string }.

Record instance := { vehicles : list vehicle; instance_other : string }.

Record problem := {
  p_instance : instance;
  return_pareto_front : bool;
  pareto_front_more_solution : bool;
  pareto_plot_file : string
}.

Global Instance origin_tag_eq_dec : EqDecision origin_tag.
Proof. solve_decision. Defined.

Definition set_origin (o : option origin_tag) (s : solution) : solution :=
  {| code := code s; error := error s; routes := routes s;
     summary := summary s; origin := o |}.

Definition set_vehicles (vs : list vehicle) (i : instance) : instance :=
  {| vehicles := vs; instance_other := instance_other i |}.

Definition set_time_window (tw : list Z) (v : vehicle) : vehicle :=
  {| time_window := Some tw; vehicle_other := vehicle_other v |}.

(** ** Completion time *)

(** [r["steps"][-1]["arrival"]]: indexing an empty list raises. *)
Definition last_arrival (r : route) : result Z :=
  match last (steps r) with
  | Some st => Ok (arrival st)
  | None => Raise IndexError
  end.

(** [max(xs)] on a list already evaluated: an empty argument raises. *)
Definition py_max (xs : list Z) : result Z :=
  match xs with
  | [] => Raise ValueError
  | x :: xs' => Ok (foldl Z.max x xs')
  end.

Definition py_min (xs : list Z) : result Z :=
  match xs with
  | [] => Raise ValueError
  | x :: xs' => Ok (foldl Z.min x xs')
  end.

(** [max(r["steps"][-1]["arrival"] for r in sol["routes"])] *)
Definition completion_time (sol : solution) : result Z :=
  arrivals ← rmap last_arrival (routes sol) ; py_max arrivals.

(** ** Removal of marked indices *)

(** [sorted(set(to_remove), reverse=True)] *)
Definition sorted_set_reverse (to_remove : list nat) : list nat :=
  reverse (merge_sort Nat.le (elements (list_to_set to_remove : gset nat))).

(** [for idx in sorted(set(to_remove), reverse=True): solutions.pop(idx)].
    Every index comes from [range(len(solutions))] and the indices are
    popped from the highest down, so [pop] never goes out of range. *)
Definition pop_all {A} (l : list A) (to_remove : list nat) : list A :=
  foldl (λ acc idx, delete idx acc) l (sorted_set_reverse to_remove).

(** [[sol["summary"]["cost"] for sol in solutions]] *)
Definition costs_of (solutions : list solution) : list Z :=
  (λ sol, cost (summary sol)) <$> solutions.

(** ** Dominance filter *)

(** The inner [for j in range(len(solutions))] of [filter_dominated], with
    its [continue] and [break]. *)
Fixpoint dominated_scan (cts costs : list Z) (i : nat) (js : list nat)
    (to_remove : list nat) : list nat :=
  match js with
  | [] => to_remove
  | j :: js' =>
      if decide (i = j) then dominated_scan cts costs i js' to_remove
      else if bool_decide (cts !!! j < cts !!! i) && bool_decide (costs !!! j < costs !!! i)
      then to_remove ++ [i]
      else dominated_scan cts costs i js' to_remove
  end.

Definition dominated_marks (cts costs : list Z) (n : nat) : list nat :=
  foldl (λ to_remove i, dominated_scan cts costs i (seq 0 n) to_remove) [] (seq 0 n).

Definition filter_dominated (solutions : list solution) : result (list solution) :=
  completion_times ← rmap completion_time solutions ;
  let costs := costs_of solutions in
  let to_remove := dominated_marks completion_times costs (length solutions) in
  Ok (pop_all solutions to_remove).

(** ** Uniqueness filter *)

(** The inner [for j in range(i + 1, len(solutions))] of [filter_unique]. *)
Fixpoint unique_scan (cts costs : list Z) (i : nat) (js : list nat)
    (to_remove : list nat) : list nat :=
  match js with
  | [] => to_remove
  | j :: js' =>
      if bool_decide (j ∈ to_remove) then unique_scan cts costs i js' to_remove
      else if bool_decide (cts !!! i = cts !!! j) && bool_decide (costs !!! i = costs !!! j)
      then to_remove ++ [j]
      else unique_scan cts costs i js' to_remove
  end.

Definition unique_marks (cts costs : list Z) (n : nat) : list nat :=
  foldl (λ to_remove i, unique_scan cts costs i (seq (S i) (n - S i)) to_remove)
        [] (seq 0 n).

Definition filter_unique (solutions : list solution) : result (list solution) :=
  completion_times ← rmap completion_time solutions ;
  let costs := costs_of solutions in
  let to_remove := unique_marks completion_times costs (length solutions) in
  Ok (pop_all solutions to_remove).

(** ** Stable sort by completion time *)

(** [solutions.sort(key=...)] evaluates the key of every member first and
    then performs a stable sort on the keys.  The built-in sort is modelled
    by a stable insertion sort on (key, member) pairs; the lemmas
    [sort_by_key_sorted], [sort_by_key_perm] and [sort_by_key_stable] show
    the three properties that determine the result of any stable sort. *)
Fixpoint insert_by_key {A} (x : Z * A) (l : list (Z * A)) : list (Z * A) :=
  match l with
  | [] => [x]
  | y :: l' =>
      if bool_decide (x.1 ≤ y.1) then x :: y :: l' else y :: insert_by_key x l'
  end.

Definition sort_by_key {A} (l : list (Z * A)) : list (Z * A) :=
  foldr insert_by_key [] l.

Definition sort_by_completion (solutions : list solution) : result (list solution) :=
  keys ← rmap completion_time solutions ;
  Ok ((sort_by_key (zip keys solutions)).*2).

(** ** Shrinking the vehicles' time windows *)

(** [v.get("time_window", [0, latest])] *)
Definition get_time_window (v : vehicle) (latest : Z) : list Z :=
  default [0; latest] (time_window v).

(** [tw[0]] *)
Definition item0 (tw : list Z) : result Z :=
  match tw !! 0%nat with
  | Some x => Ok x
  | None => Raise IndexError
  end.

(** [tw[1] = x] *)
Definition set_item1 (tw : list Z) (x : Z) : result (list Z) :=
  if decide (1 < length tw)%nat then Ok (<[1%nat := x]> tw) else Raise IndexError.

(** [tw0, tw1 = tw] *)
Definition unpack2 (tw : list Z) : result (Z * Z) :=
  match tw with
  | [a; b] => Ok (a, b)
  | _ => Raise ValueError
  end.

(** The loop [for idx in reversed(range(len(vehicles)))] shared by both
    searches.  [body] is what the loop does with [vehicles[idx]]: it raises,
    asks for the vehicle to be popped ([None]), or gives the vehicle with
    its window updated in place. *)
Fixpoint shrink_loop (body : vehicle → result (option vehicle))
    (idxs : list nat) (vs : list vehicle) : result (list vehicle) :=
  match idxs with
  | [] => Ok vs
  | idx :: idxs' =>
      match vs !! idx with
      | None => Raise IndexError
      | Some v =>
          r ← body v ;
          match r with
          | None => shrink_loop body idxs' (delete idx vs)
          | Some v' => shrink_loop body idxs' (<[idx := v']> vs)
          end
      end
  end.

Definition shrink_vehicles (body : vehicle → result (option vehicle))
    (vs : list vehicle) : result (list vehicle) :=
  shrink_loop body (reverse (seq 0 (length vs))) vs.

(** Body of the loop at lines 110-115 of [dichotomy]. *)
Definition shrink_dichotomy (candidate latest : Z) (v : vehicle) : result (option vehicle) :=
  '(tw0, tw1) ← unpack2 (get_time_window v latest) ;
  if bool_decide (candidate < tw0) then Ok None
  else
    match time_window v with
    | None => Raise (KeyError "time_window")
    | Some tw => tw' ← set_item1 tw candidate ; Ok (Some (set_time_window tw' v))
    end.

(** Body of the loop at lines 170-175 of [backward_search]. *)
Definition shrink_backward (latest : Z) (v : vehicle) : result (option vehicle) :=
  match time_window v with
  | None => Raise (KeyError "time_window")
  | Some tw =>
      tw0 ← item0 tw ;
      if bool_decide (latest < tw0) then Ok None
      else tw' ← set_item1 tw latest ; Ok (Some (set_time_window tw' v))
  end.

(** [min((v.get("time_window", [0, latest])[0] for v in vehicles), default=0)] *)
Definition earliest_TW (latest : Z) (vs : list vehicle) : result Z :=
  starts ← rmap (λ v, item0 (get_time_window v latest)) vs ;
  match starts with
  | [] => Ok 0
  | x :: xs => Ok (foldl Z.min x xs)
  end.

(** ** Origin tags and the returned value *)

Definition strip_origin (s : solution) : solution := set_origin None s.

(** [best["summary"].pop("computing_times", None)] *)
Definition strip_computing_times (s : solution) : solution :=
  {| code := code s; error := error s; routes := routes s;
     summary := {| cost := cost (summary s); unassigned := unassigned (summary s);
                   computing_times := None |};
     origin := origin s |}.

Inductive response :=
  | Front (solutions : list solution)
  | Best (best : solution).

Record indicator := {
  ind_completion : Z;
  ind_cost : Z;
  ind_origin : origin_tag
}.

(** One entry of the list handed to the plotting collaborator. *)
Definition make_indicator (sol : solution) : result indicator :=
  ct ← completion_time sol ;
  match origin sol with
  | Some o => Ok {| ind_completion := ct; ind_cost := cost (summary sol); ind_origin := o |}
  | None => Raise (KeyError "origin")
  end.

(** ** The two searches and the orchestrator *)

Inductive dichotomy_next :=
  | Break
  | Continue (earliest latest : Z) (solutions : list solution).

Section Search.

Variable solve : instance → solution.

(** One pass through the body of [while True] in [dichotomy]. *)
Definition dichotomy_iter (init_input : instance) (earliest latest : Z)
    (solutions : list solution) : result dichotomy_next :=
  let candidate := (earliest + latest) `div` 2 in
  if bool_decide (candidate = earliest ∨ candidate = latest) then Ok Break
  else
    vs ← shrink_vehicles (shrink_dichotomy candidate latest) (vehicles init_input) ;
    let current := set_vehicles vs init_input in
    let current_sol := solve current in
    ct ← match routes current_sol with
         | [] => Ok None
         | _ => Some <$> completion_time current_sol
         end ;
    if bool_decide (unassigned (summary current_sol) = Some 0)
    then Ok (Continue earliest candidate
               (solutions ++ [set_origin (Some Dichotomy) current_sol]))
    else Ok (Continue candidate latest solutions).

Fixpoint dichotomy_loop (fuel : nat) (init_input : instance) (earliest latest : Z)
    (solutions : list solution) : result (list solution) :=
  match fuel with
  | O => Timeout
  | S fuel' =>
      next ← dichotomy_iter init_input earliest latest solutions ;
      match next with
      | Break => Ok solutions
      | Continue earliest' latest' solutions' =>
          dichotomy_loop fuel' init_input earliest' latest' solutions'
      end
  end.

(** Fuel that [dichotomy_loop_terminates] shows to be sufficient. *)
Definition dichotomy_fuel (earliest latest : Z) : nat :=
  S (Z.to_nat (Z.abs (latest - earliest))).

Definition dichotomy (data : instance) (first_solution : solution)
    : result (list solution) :=
  let init_input := data in
  let sol0 := set_origin (Some Initial) first_solution in
  let solutions := [sol0] in
  init_ct ← completion_time sol0 ;
  end_dates ← rmap last_arrival (routes first_solution) ;
  earliest ← py_min end_dates ;
  latest ← py_max end_dates ;
  earliest_tw ← earliest_TW latest (vehicles init_input) ;
  let earliest :=
    if bool_decide (length (routes first_solution) < length (vehicles init_input))%nat
    then earliest_tw else earliest in
  dichotomy_loop (dichotomy_fuel earliest latest) init_input earliest latest solutions.

(** [while unassigned == 0] of [backward_search]; the loop has no bound of
    its own, so the model takes fuel. *)
Fixpoint backward_loop (fuel : nat) (current : instance) (latest : Z)
    (unassigned_seen : option Z) (solutions : list solution)
    : result (list solution) :=
  if bool_decide (unassigned_seen = Some 0) then
    match fuel with
    | O => Timeout
    | S fuel' =>
        let sol := solve current in
        ct ← completion_time sol ;
        let unassigned_seen := unassigned (summary sol) in
        let solutions := solutions ++ [set_origin (Some BackwardSearch) sol] in
        let latest := latest - 1 in
        vs ← shrink_vehicles (shrink_backward latest) (vehicles current) ;
        backward_loop fuel' (set_vehicles vs current) latest unassigned_seen solutions
    end
  else Ok solutions.

Definition backward_search (fuel : nat) (data : instance) (first_solution : solution)
    : result (list solution) :=
  latest ← completion_time first_solution ;
  let unassigned_seen := Some (default 0 (unassigned (summary first_solution))) in
  backward_loop fuel data latest unassigned_seen [].

Definition infeasible_message : string := "Initial solution has unassigned jobs".

Definition solve_asap (fuel : nat) (p : problem) : result response :=
  let init := solve (p_instance p) in
  if bool_decide (default 1 (code init) ≠ 0) then
    match code init with
    | None => Raise (KeyError "code")
    | Some c =>
        match error init with
        | None => Raise (KeyError "error")
        | Some e => Raise (OSError c e)
        end
    end
  else if bool_decide (default 0 (unassigned (summary init)) ≠ 0) then
    Raise (OSError 2 infeasible_message)
  else
    solutions ← dichotomy (p_instance p) init ;
    solutions ← (if pareto_front_more_solution p
                 then more ← backward_search fuel (p_instance p) init ;
                      Ok (solutions ++ more)
                 else Ok solutions) ;
    solutions ← sort_by_completion solutions ;
    solutions ← filter_dominated solutions ;
    solutions ← filter_unique solutions ;
    _ ← (if bool_decide (pareto_plot_file p ≠ "")
         then rmap make_indicator solutions else Ok []) ;
    if return_pareto_front p then Ok (Front (strip_origin <$> solutions))
    else
      match solutions with
      | [] => Raise IndexError
      | best :: _ => Ok (Best (strip_computing_times (strip_origin best)))
      end.

End Search.

(** ** Reference definitions used in the statements *)

(** The members of [l] whose index, counted from [k], is not marked. *)
Fixpoint keep_from {A} (marked : list nat) (k : nat) (l : list A) : list A :=
  match l with
  | [] => []
  | x :: l' =>
      if bool_decide (k ∈ marked) then keep_from marked (S k) l'
      else x :: keep_from marked (S k) l'
  end.

Definition remove_marked {A} (marked : list nat) (l : list A) : list A :=
  keep_from marked 0 l.

(** [y] strictly dominates [x]: strictly earlier and strictly cheaper. *)
Definition strictly_dominates (y x : solution) : Prop :=
  ∃ cy cx, completion_time y = Ok cy ∧ completion_time x = Ok cx ∧
           cy < cx ∧ cost (summary y) < cost (summary x).

Global Instance strictly_dominates_dec y x : Decision (strictly_dominates y x).
Proof.
  unfold strictly_dominates.
  destruct (completion_time y) as [cy| |] eqn:Hy;
    [|right; by intros (? & ? & ? & _)..].
  destruct (completion_time x) as [cx| |] eqn:Hx;
    [|right; by intros (? & ? & _ & ? & _)..].
  destruct (decide (cy < cx ∧ cost (summary y) < cost (summary x))) as [H|H].
  - left. by exists cy, cx.
  - right. intros (? & ? & [= <-] & [= <-] & ?). by apply H.
Defined.

(** Members [i] and [j] have the same completion time and the same cost. *)
Definition same_point (cts costs : list Z) (i j : nat) : Prop :=
  cts !!! i = cts !!! j ∧ costs !!! i = costs !!! j.

(** The scan of the uniqueness filter in the words of the specification:
    among the indices [js] after [i], the first one that is not yet marked
    and is the same point as [i] gets marked, and the scan for [i] stops. *)
Definition spec_unique_scan (cts costs : list Z) (i : nat) (js : list nat)
    (to_remove : list nat) : list nat :=
  match list_find (λ j, (j ∉ to_remove) ∧ same_point cts costs i j) js with
  | Some (_, j) => to_remove ++ [j]
  | None => to_remove
  end.

(** Member [j] beats member [i] on both axes. *)
Definition dominated_by (cts costs : list Z) (i j : nat) : Prop :=
  j ≠ i ∧ cts !!! j < cts !!! i ∧ costs !!! j < costs !!! i.

(** [pred_before cts costs i j]: the nearest member before [j] that is the
    same point as [j] has an index below [i]. *)
Definition pred_before (cts costs : list Z) (i j : nat) : Prop :=
  ∃ i', (i' < i)%nat ∧ (i' < j)%nat ∧ same_point cts costs i' j ∧
        ∀ m, (i' < m < j)%nat → ¬ same_point cts costs m j.

(** Invariant of the outer loop of the uniqueness filter: once the indices
    below [i] are processed, the marked members are those whose nearest
    earlier twin lies below [i]. *)
Definition unique_inv (cts costs : list Z) (n i : nat) (to_remove : list nat) : Prop :=
  ∀ j, j ∈ to_remove ↔ (j < n)%nat ∧ pred_before cts costs i j.

(** The vehicle loop as a recursion on the list: the vehicles are visited
    from the last to the first, each one is dropped or updated on its own.
    [shrink_vehicles_list] shows that the index loop computes this. *)
Fixpoint shrink_list (body : vehicle → result (option vehicle))
    (vs : list vehicle) : result (list vehicle) :=
  match vs with
  | [] => Ok []
  | v :: vs' =>
      rest ← shrink_list body vs' ;
      r ← body v ;
      Ok (option_list r ++ rest)
  end.


(** ** Sample data for the worked instances *)

(** A fully routed solution with one route that ends at [ct] and costs [c]. *)
Definition point (ct c : Z) (unass : Z) : solution :=
  {| code := Some 0; error := None;
     routes := [ {| steps := [ {| arrival := 0; step_other := "start" |};
                               {| arrival := ct; step_other := "end" |} ];
                    route_other := "" |} ];
     summary := {| cost := c; unassigned := Some unass; computing_times := Some "{}" |};
     origin := None |}.

Definition sample_pool : list solution :=
  [point 1 9 0; point 1 9 0; point 1 9 0; point 2 7 0; point 3 8 0; point 4 7 0].

Definition sample_undominated : list solution :=
  [point 1 9 0; point 1 9 0; point 1 9 0; point 2 7 0; point 4 7 0].

Definition sample_frontier : list solution :=
  [point 1 9 0; point 2 7 0; point 4 7 0].

(** A stub for the external solver.  The horizon of an instance is the
    smallest window end among its vehicles, [full] when nothing bounds it.
    The stub routes every job iff the instance has a vehicle left and its
    horizon is at least [threshold]; an earlier finish costs more. *)
Definition stub_horizon (full : Z) (inst : instance) : Z :=
  foldr (λ v h, match time_window v with
                | Some [_; e] => Z.min e h
                | _ => h
                end) full (vehicles inst).

Definition stub_solve (full threshold : Z) (inst : instance) : solution :=
  let h := stub_horizon full inst in
  if bool_decide (vehicles inst ≠ [] ∧ threshold ≤ h)
  then point h (200 - h) 0
  else point h (200 - h) 1.

Definition windowed (a b : Z) : vehicle :=
  {| time_window := Some [a; b]; vehicle_other := "" |}.

Definition unwindowed : vehicle :=
  {| time_window := None; vehicle_other := "" |}.

Definition sample_instance : instance :=
  {| vehicles := [windowed 0 100; windowed 0 100]; instance_other := "jobs" |}.

Definition sample_instance_no_window : instance :=
  {| vehicles := [windowed 0 100; unwindowed]; instance_other := "jobs" |}.

Definition sample_problem (front more : bool) : problem :=
  {| p_instance := sample_instance; return_pareto_front := front;
     pareto_front_more_solution := more; pareto_plot_file := "front.png" |}.

Definition sample_sweep : list solution :=
  Eval vm_compute in
    match backward_search (stub_solve 40 38) 10 sample_instance
            (stub_solve 40 38 sample_instance) with
    | Ok out => out
    | _ => []
    end.


Definition sample_front : list solution :=
  Eval vm_compute in
    match solve_asap (stub_solve 40 30) 20 (sample_problem true true) with
    | Ok (Front front) => front
    | _ => []
    end.

Definition sample_best : solution :=
  Eval vm_compute in
    match solve_asap (stub_solve 40 30) 20 (sample_problem false false) with
    | Ok (Best best) => best
    | _ => point 0 0 0
    end.

(** As [stub_solve], but a probe that leaves jobs unassigned routes nothing
    at all. *)
Definition stub_solve_unrouted (full threshold : Z) (inst : instance) : solution :=
  let sol := stub_solve full threshold inst in
  if bool_decide (unassigned (summary sol) = Some 0) then sol
  else {| code := code sol; error := error sol; routes := [];
          summary := summary sol; origin := origin sol |}.

(** A solver that fails on every instance and still reports a summary. *)
Definition failing_solve (inst : instance) : solution :=
  {| code := Some 3; error := Some "routing error"; routes := [];
     summary := {| cost := 0; unassigned := Some 5; computing_times := None |};
     origin := None |}.


(** ** The plot of the frontier *)





(** ** The command-line wrapper [asap.py] *)

(** The parsed command line.  [-a] and [-p] use [nargs="+"] with
    [action="append"]: absent, or a list of groups of tokens.  The float of
    [-l] is kept in the form [str] prints it, the only use the wrapper
    makes of it. *)
Record cli_args := {
  arg_a : option (list (list string));
  arg_g : bool;
  arg_l : option string;
  arg_p : option (list (list string));
  arg_pareto_front : bool;
  arg_pareto_front_more_solutions : bool;
  arg_pareto_plot_file : string;
  arg_r : string;
  arg_t : option Z;
  arg_x : option Z
}.

(** [group[0]] *)
Definition first_token (group : list string) : result string :=
  match group with
  | t :: _ => Ok t
  | [] => Raise IndexError
  end.

(** [[flag + g[0] for g in groups]] under [if groups:] *)
Definition glued_first_tokens (flag : string) (groups : option (list (list string)))
    : result (list string) :=
  match groups with
  | Some gs => rmap (λ g, t ← first_token g ; Ok (flag +:+ t)) gs
  | None => Ok []
  end.

Definition get_cl_args (args : cli_args) (unknown_cli : list string)
    : result (list string) :=
  all_a ← glued_first_tokens "-a" (arg_a args) ;
  let all_g := if arg_g args then ["-g"] else [] in
  let all_l := match arg_l args with Some l => ["-l" +:+ l] | None => [] end in
  all_p ← glued_first_tokens "-p" (arg_p args) ;
  let all_r := if bool_decide (arg_r args ≠ "") then ["-r" +:+ arg_r args] else [] in
  let all_t := match arg_t args with Some t => ["-t" +:+ pretty t] | None => [] end in
  let all_x := match arg_x args with Some x => ["-x" +:+ pretty x] | None => [] end in
  Ok (all_a ++ all_g ++ all_l ++ all_p ++ all_r ++ all_t ++ all_x ++ unknown_cli).

(** [s.split(sep)] for a separator of one character. *)
Fixpoint split_on (sep : ascii) (s : string) : list string :=
  match s with
  | EmptyString => [EmptyString]
  | String c s' =>
      if decide (c = sep) then EmptyString :: split_on sep s'
      else match split_on sep s' with
           | w :: ws => String c w :: ws
           | [] => [String c EmptyString]
           end
  end.

(** [profile, value = token.split(":")] *)
Definition split_pair (token : string) : result (string * string) :=
  match split_on ":"%char token with
  | [a; b] => Ok (a, b)
  | _ => Raise ValueError
  end.

Record profile_entry := {
  host : option string;
  port : option string
}.

Record routing := {
  engine : string;
  profiles : gmap string profile_entry
}.

Global Instance profile_entry_eq_dec : EqDecision profile_entry.
Proof. solve_decision. Defined.

Definition empty_entry : profile_entry := {| host := None; port := None |}.

(** [profiles.setdefault(profile, {})["host"] = value] *)
Definition put_host (profile value : string) (m : gmap string profile_entry)
    : gmap string profile_entry :=
  let e := default empty_entry (m !! profile) in
  <[profile := {| host := Some value; port := port e |}]> m.

(** [profiles.setdefault(profile, {})["port"] = value] *)
Definition put_port (profile value : string) (m : gmap string profile_entry)
    : gmap string profile_entry :=
  let e := default empty_entry (m !! profile) in
  <[profile := {| host := host e; port := Some value |}]> m.

(** One of the two [for] loops of [get_routing]. *)
Fixpoint add_entries (put : string → string → gmap string profile_entry →
                            gmap string profile_entry)
    (groups : list (list string)) (m : gmap string profile_entry)
    : result (gmap string profile_entry) :=
  match groups with
  | [] => Ok m
  | g :: groups' =>
      token ← first_token g ;
      '(profile, value) ← split_pair token ;
      add_entries put groups' (put profile value m)
  end.

Definition default_profiles : gmap string profile_entry :=
  {[ "car" := {| host := Some "0.0.0.0"; port := Some "5000" |} ]}.

Definition get_routing (args : cli_args) : result routing :=
  m ← add_entries put_host (default [] (arg_a args)) ∅ ;
  m ← add_entries put_port (default [] (arg_p args)) m ;
  let m := if decide (m = ∅) then default_profiles else m in
  Ok {| engine := arg_r args; profiles := m |}.

(** What the wrapper can catch besides the exceptions of the search: the
    [AttributeError] of calling [.get] on a list. *)
Inductive main_exn :=
  | Core (e : exn)
  | AttributeError.

(** The response written by [json.dump]: a solution, or the dictionary
    [{"code": 1, "error": str(exc)}] built from a caught exception. *)
Inductive written :=
  | WriteSolution (s : solution)
  | WriteError (e : main_exn).

Record main_outcome := {
  out_written : written;
  out_exit : Z
}.

Section Main.

(** [utils.vroom.solve(data, cl_args)] and [utils.matrix.add_matrix], both
    outside the source files at hand. *)
Variable solve_with : list string → instance → solution.
Variable add_matrix : instance → routing → result instance.

(** The [try] block up to the call of [solve_asap]; [has_matrices] is
    ["matrices" in data]. *)
Definition main_search (fuel : nat) (args : cli_args) (unknown : list string)
    (data : instance) (has_matrices : bool) : result response :=
  data ← (if has_matrices then Ok data
          else r ← get_routing args ; add_matrix data r) ;
  cl_args ← get_cl_args args unknown ;
  solve_asap (solve_with cl_args) fuel
    {| p_instance := data;
       return_pareto_front :=
         arg_pareto_front args || arg_pareto_front_more_solutions args;
       pareto_front_more_solution := arg_pareto_front_more_solutions args;
       pareto_plot_file := arg_pareto_plot_file args |}.

(** The main block from the parsed input on.  After [solve_asap] the [try]
    block evaluates [response.get("code", 0)] for its log line, which a
    list does not have; every exception is caught and turned into the
    error response.  [None] stands for a search that ran out of fuel. *)
Definition main (fuel : nat) (args : cli_args) (unknown : list string)
    (data : instance) (has_matrices : bool) : option main_outcome :=
  match main_search fuel args unknown data has_matrices with
  | Timeout => None
  | Raise e => Some {| out_written := WriteError (Core e); out_exit := 1 |}
  | Ok (Front _) => Some {| out_written := WriteError AttributeError; out_exit := 1 |}
  | Ok (Best best) =>
      Some {| out_written := WriteSolution best; out_exit := default 0 (code best) |}
  end.

End Main.

(** ** Further reference definitions *)

(** The point of a solution on the two axes. *)
Definition point_of (sol : solution) : result Z * Z :=
  (completion_time sol, cost (summary sol)).

(** The members of [l] whose point is neither in [seen] nor the point of an
    earlier member of [l]. *)
Fixpoint first_occurrences (seen : list (result Z * Z)) (l : list solution)
    : list solution :=
  match l with
  | [] => []
  | x :: l' =>
      if bool_decide (point_of x ∈ seen) then first_occurrences seen l'
      else x :: first_occurrences (point_of x :: seen) l'
  end.

(** [s] was recorded by a pass of the dichotomic search: the solver's fully
    routed answer on the instance clamped at some candidate. *)
Definition recorded_probe (solve : instance → solution) (data : instance)
    (s : solution) : Prop :=
  ∃ candidate latest vs,
    shrink_vehicles (shrink_dichotomy candidate latest) (vehicles data) = Ok vs ∧
    s = set_origin (Some Dichotomy) (solve (set_vehicles vs data)) ∧
    unassigned (summary s) = Some 0.


(** A solution that leaves no job unassigned: the count is zero or absent,
    as the check on the first solve reads it. *)
Definition fully_routed (s : solution) : Prop :=
  default 0 (unassigned (summary s)) = 0.

(** A vehicle whose window is a list of at least two bounds. *)
Definition has_window (v : vehicle) : Prop :=
  ∃ tw0 tw1 rest, time_window v = Some (tw0 :: tw1 :: rest).

(** A vehicle clamped to the horizon [h]. *)
Definition clamped_to (h : Z) (v : vehicle) : Prop :=
  ∃ tw0 rest, time_window v = Some (tw0 :: h :: rest) ∧ tw0 ≤ h.

(** Number of occurrences of a character in a string. *)
Fixpoint count_char (c : ascii) (s : string) : nat :=
  match s with
  | EmptyString => 0
  | String c' s' => (if decide (c' = c) then 1 else 0) + count_char c s'
  end.

(** The (profile, value) pair that a [-a] or [-p] group stands for, when its
    first token has the form [profile:value]. *)
Definition entry_of (group : list string) : option (string * string) :=
  match group with
  | token :: _ =>
      match split_pair token with
      | Ok pv => Some pv
      | _ => None
      end
  | [] => None
  end.

(** The value that the last group naming [profile] gives it. *)
Definition last_value (profile : string) (groups : list (list string)) : option string :=
  last (omap (λ g, match entry_of g with
                   | Some (p, v) => if decide (p = profile) then Some v else None
                   | None => None
                   end) groups).


(** The wrapper's command line of the worked instances. *)
Definition sample_args (front more : bool) : cli_args :=
  {| arg_a := Some [["car:localhost"; "ignored"]; ["bike:10.0.0.2"]];
     arg_g := true; arg_l := Some "2.5";
     arg_p := Some [["car:5001"]];
     arg_pareto_front := front; arg_pareto_front_more_solutions := more;
     arg_pareto_plot_file := "";
     arg_r := "osrm"; arg_t := Some 4; arg_x := Some 5 |}.

Definition stub_solve_with (cl_args : list string) : instance → solution :=
  stub_solve 40 30.

Definition stub_add_matrix (data : instance) (r : routing) : result instance :=
  Ok data.

(** The dichotomic search on the worked instance. *)
Definition sample_dichotomy : list solution :=
  Eval vm_compute in
    match dichotomy (stub_solve 40 30) sample_instance
            (stub_solve 40 30 sample_instance) with
    | Ok out => out
    | _ => []
    end.

(** The worked pool after the sort. *)
Definition sample_sorted : list solution :=
  Eval vm_compute in
    match sort_by_completion sample_pool with
    | Ok out => out
    | _ => []
    end.

(** A solver that reports success with nothing to route: status code zero,
    no unassigned job and no route. *)
Definition idle_solve (inst : instance) : solution :=
  {| code := Some 0; error := None; routes := [];
     summary := {| cost := 0; unassigned := Some 0; computing_times := None |};
     origin := None |}.

(** A solver that routes every job whatever the instance is. *)
Definition eager_solve (inst : instance) : solution := point 5 7 0.

Definition single_vehicle_instance : instance :=
  set_vehicles [windowed 0 100] sample_instance.

Definition sample_indicators : list indicator :=
  [ {| ind_completion := 30; ind_cost := 170; ind_origin := Dichotomy |};
    {| ind_completion := 29; ind_cost := 171; ind_origin := BackwardSearch |};
    {| ind_completion := 40; ind_cost := 160; ind_origin := Initial |};
    {| ind_completion := 35; ind_cost := 165; ind_origin := Dichotomy |} ].


(** The routing table of the worked command line. *)
Definition sample_routing : routing :=
  Eval vm_compute in
    match get_routing (sample_args true false) with
    | Ok r => r
    | _ => {| engine := ""; profiles := ∅ |}
    end.

(** The probes recorded by the dichotomic search, and the backward sweep,
    on the worked instance with threshold 30. *)
Definition sample_probes : list solution := tail sample_dichotomy.

Definition sample_more : list solution :=
  Eval vm_compute in
    match backward_search (stub_solve 40 30) 20 sample_instance
            (stub_solve 40 30 sample_instance) with
    | Ok out => out
    | _ => []
    end.

(** * Properties *)

(** ** The result monad *)

Lemma bind_Ok {A B} (m : result A) (k : A → result B) (b : B) :
  m ≫= k = Ok b ↔ ∃ a, m = Ok a ∧ k a = Ok b.
Proof.
  destruct m as [a| |]; simpl; split; try (intros [? [? ?]]); try done.
  - intros H. by exists a.
  - congruence.
Qed.

Lemma rmap_length {A B} (f : A → result B) l ys :
  rmap f l = Ok ys → length ys = length l.
Proof.
  revert ys. induction l as [|x l IH]; intros ys; simpl.
  - by intros [= <-].
  - intros (y & _ & (ys' & Hys & [= <-])%bind_Ok)%bind_Ok. simpl. f_equal. by apply IH.
Qed.

Lemma rmap_lookup {A B} (f : A → result B) l ys i x :
  rmap f l = Ok ys → l !! i = Some x → ∃ y, ys !! i = Some y ∧ f x = Ok y.
Proof.
  revert ys i. induction l as [|a l IH]; intros ys i; simpl; [done|].
  intros (y & Hy & (ys' & Hys & [= <-])%bind_Ok)%bind_Ok.
  destruct i as [|i]; simpl.
  - intros [= <-]. eauto.
  - intros Hi. eauto.
Qed.

Lemma rmap_sublist {A B} (f : A → result B) l l' ys :
  rmap f l = Ok ys → l' `sublist_of` l → ∃ ys', rmap f l' = Ok ys' ∧ ys' `sublist_of` ys.
Proof.
  intros Hl Hsub. revert ys Hl.
  induction Hsub as [|x l1 l2 _ IH|x l1 l2 _ IH]; intros ys; simpl.
  - intros [= <-]. by exists [].
  - intros (y & Hy & (ys' & Hys & [= <-])%bind_Ok)%bind_Ok.
    destruct (IH _ Hys) as (zs & Hzs & Hsub'). exists (y :: zs).
    rewrite Hy. simpl. rewrite Hzs. simpl. split; [done|]. by constructor.
  - intros (y & Hy & (ys' & Hys & [= <-])%bind_Ok)%bind_Ok.
    destruct (IH _ Hys) as (zs & Hzs & Hsub'). exists zs. split; [done|].
    by constructor.
Qed.

(** ** Popping the marked indices *)

Lemma keep_from_ext {A} (m1 m2 : list nat) k (l : list A) :
  (∀ i, (k ≤ i)%nat → i ∈ m1 ↔ i ∈ m2) → keep_from m1 k l = keep_from m2 k l.
Proof.
  revert k. induction l as [|x l IH]; intros k Hm; simpl; [done|].
  rewrite (IH (S k)) by (intros; apply Hm; lia).
  by rewrite (bool_decide_ext (k ∈ m1) (k ∈ m2)) by (apply Hm; lia).
Qed.

Lemma keep_from_nil {A} k (l : list A) : keep_from [] k l = l.
Proof.
  revert k. induction l as [|x l IH]; intros k; [done|]. cbn [keep_from].
  rewrite bool_decide_eq_false_2 by apply not_elem_of_nil. by rewrite IH.
Qed.

Lemma keep_from_sublist {A} m k (l : list A) : keep_from m k l `sublist_of` l.
Proof.
  revert k. induction l as [|x l IH]; intros k; simpl; [done|].
  case_bool_decide; by constructor.
Qed.

Lemma elem_of_keep_from {A} m k (l : list A) x :
  x ∈ keep_from m k l ↔ ∃ i, l !! i = Some x ∧ (k + i)%nat ∉ m.
Proof.
  revert k. induction l as [|a l IH]; intros k; cbn [keep_from].
  - split; [by intros ?%elem_of_nil|]. by intros (i & ? & _).
  - assert ((∃ i, l !! i = Some x ∧ (S k + i)%nat ∉ m) ↔
            (∃ i, (a :: l) !! S i = Some x ∧ (k + S i)%nat ∉ m)) as Hshift.
    { split; intros (i & Hi & Hm); exists i; (split; [done|]);
        by rewrite ?Nat.add_succ_r in *. }
    case_bool_decide as Hk.
    + rewrite IH, Hshift. split.
      * intros (i & Hi & Hm). eauto.
      * intros ([|i] & Hi & Hm); [|eauto]. by rewrite Nat.add_0_r in Hm.
    + rewrite elem_of_cons, IH, Hshift. split.
      * intros [->|(i & Hi & Hm)]; [|eauto].
        exists 0%nat. by rewrite Nat.add_0_r.
      * intros ([|i] & Hi & Hm); [|eauto]. left. by injection Hi.
Qed.

(** Two positions of the kept list come from two unmarked positions of the
    original list, in the same order. *)
Lemma keep_from_lookup_lt {A} m k (l : list A) p q x y :
  keep_from m k l !! p = Some x → keep_from m k l !! q = Some y → (p < q)%nat →
  ∃ i j, (i < j)%nat ∧ l !! i = Some x ∧ l !! j = Some y ∧
         ((k + i)%nat ∉ m) ∧ ((k + j)%nat ∉ m).
Proof.
  revert k p q. induction l as [|a l IH]; intros k p q; cbn [keep_from]; [done|].
  assert (∀ p q, keep_from m (S k) l !! p = Some x →
            keep_from m (S k) l !! q = Some y → (p < q)%nat →
            ∃ i j, (i < j)%nat ∧ (a :: l) !! i = Some x ∧ (a :: l) !! j = Some y ∧
                   ((k + i)%nat ∉ m) ∧ ((k + j)%nat ∉ m)) as IH'.
  { intros p' q' Hp Hq Hpq.
    destruct (IH _ _ _ Hp Hq Hpq) as (i & j & ? & ? & ? & ? & ?).
    exists (S i), (S j). rewrite !Nat.add_succ_r. repeat split; try done. lia. }
  case_bool_decide as Hk; [by apply IH'|].
  destruct p as [|p], q as [|q]; try (intros; lia).
  - intros [= <-] Hq _. change (keep_from m (S k) l !! q = Some y) in Hq.
    assert (y ∈ keep_from m (S k) l) as (j & Hj & Hm)%elem_of_keep_from
      by (by eapply list_elem_of_lookup_2).
    exists 0%nat, (S j). rewrite Nat.add_0_r, Nat.add_succ_r.
    repeat split; try done. lia.
  - intros Hp Hq Hpq. apply (IH' p q); [done|done|lia].
Qed.

Lemma foldl_delete_nil {A} (f : nat → nat) (ds : list nat) :
  foldl (λ (acc : list A) d, delete (f d) acc) [] ds = [].
Proof. induction ds as [|d ds IH]; simpl; [done|]. by destruct (f d). Qed.

Lemma foldl_delete_cons {A} k (a : A) l (ds : list nat) :
  Forall (λ d, S k ≤ d)%nat ds →
  foldl (λ acc d, delete (d - k)%nat acc) (a :: l) ds
  = a :: foldl (λ acc d, delete (d - S k)%nat acc) l ds.
Proof.
  intros Hds. revert l. induction Hds as [|d ds Hd _ IH]; intros l; simpl; [done|].
  replace (d - k)%nat with (S (d - S k)) by lia. simpl. apply IH.
Qed.

Lemma foldl_delete_keep_from {A} (asc : list nat) k (l : list A) :
  StronglySorted lt asc → Forall (λ d, k ≤ d)%nat asc →
  foldl (λ acc d, delete (d - k)%nat acc) l (reverse asc) = keep_from asc k l.
Proof.
  revert asc k. induction l as [|a l IH]; intros asc k Hsort Hge.
  - by rewrite foldl_delete_nil.
  - destruct asc as [|x rest].
    { by rewrite keep_from_nil. }
    apply StronglySorted_inv in Hsort as [Hrest Hx].
    apply Forall_cons in Hge as [Hkx Hge].
    assert (Forall (λ d, S k ≤ d)%nat rest) as Hrest_ge.
    { eapply Forall_impl; [exact Hx|]. simpl. lia. }
    destruct (decide (x = k)) as [->|Hne].
    + rewrite reverse_cons, foldl_app. simpl.
      rewrite foldl_delete_cons by (by apply Forall_reverse).
      rewrite Nat.sub_diag. simpl.
      rewrite bool_decide_eq_true_2 by apply list_elem_of_here.
      rewrite IH by done. apply keep_from_ext.
      intros i Hi. rewrite elem_of_cons. split; [auto|]. intros [->|]; [lia|done].
    + rewrite foldl_delete_cons.
      2:{ apply Forall_reverse. constructor; [lia|done]. }
      simpl. rewrite bool_decide_eq_false_2.
      2:{ rewrite elem_of_cons. intros [->|Hin]; [done|].
          rewrite Forall_forall in Hrest_ge. specialize (Hrest_ge _ Hin). lia. }
      f_equal. apply IH.
      * by constructor.
      * constructor; [lia|done].
Qed.

Lemma sorted_set_reverse_spec (to_remove : list nat) :
  ∃ asc, sorted_set_reverse to_remove = reverse asc ∧ StronglySorted lt asc ∧
         ∀ i, i ∈ asc ↔ i ∈ to_remove.
Proof.
  unfold sorted_set_reverse.
  set (els := elements (list_to_set to_remove : gset nat)).
  exists (merge_sort Nat.le els). split; [done|].
  assert (NoDup (merge_sort Nat.le els)) as Hnd.
  { rewrite merge_sort_Permutation. apply NoDup_elements. }
  assert (StronglySorted Nat.le (merge_sort Nat.le els)) as Hs.
  { apply StronglySorted_merge_sort; apply _. }
  split.
  - induction Hs as [|x l Hl IHs Hx]; [constructor|].
    apply NoDup_cons in Hnd as [Hnx Hnd]. constructor; [by apply IHs|].
    rewrite Forall_forall in Hx |- *. intros y Hy. specialize (Hx y Hy).
    assert (x ≠ y) by (by intros ->). unfold Nat.le in *; lia.
  - intros i. rewrite merge_sort_Permutation. unfold els.
    rewrite elem_of_elements, elem_of_list_to_set. done.
Qed.

Lemma pop_all_remove_marked {A} (l : list A) (to_remove : list nat) :
  pop_all l to_remove = remove_marked to_remove l.
Proof.
  unfold pop_all, remove_marked.
  destruct (sorted_set_reverse_spec to_remove) as (asc & -> & Hs & Hin).
  rewrite <- (keep_from_ext asc) by (intros; apply Hin).
  rewrite <- foldl_delete_keep_from; [|done|].
  - generalize (reverse asc). intros ds. revert l.
    induction ds as [|d ds IH]; intros l; simpl; [done|].
    rewrite Nat.sub_0_r. apply IH.
  - apply Forall_forall. intros; lia.
Qed.

Lemma keep_from_filter {A} (P : A → Prop) `{!∀ x, Decision (P x)} m k (l : list A) :
  (∀ i x, l !! i = Some x → (k + i)%nat ∈ m ↔ ¬ P x) →
  keep_from m k l = filter P l.
Proof.
  revert k. induction l as [|a l IH]; intros k Hm; [done|].
  cbn [keep_from]. rewrite filter_cons.
  rewrite (IH (S k)).
  2:{ intros i x Hi. rewrite <- (Hm (S i) x Hi). by rewrite Nat.add_succ_r. }
  specialize (Hm 0%nat a eq_refl). rewrite Nat.add_0_r in Hm.
  case_bool_decide as Hk; destruct (decide (P a)) as [HP|HP]; try done.
  - by apply Hm in Hk.
  - by apply Hm in HP.
Qed.

(** ** Marks of the dominance filter *)

Section DominatedMarks.

Variables cts costs : list Z.

Lemma dominated_scan_hit i js to_remove :
  Exists (dominated_by cts costs i) js → dominated_scan cts costs i js to_remove = to_remove ++ [i].
Proof.
  induction js as [|j js IH]; [by intros ?%Exists_nil|].
  cbn [dominated_scan]. intros Hex. destruct (decide (i = j)) as [->|Hij].
  - apply IH. apply Exists_cons in Hex as [[? _]|]; done.
  - destruct (decide (cts !!! j < cts !!! i ∧ costs !!! j < costs !!! i)) as [[H1 H2]|Hno].
    + by rewrite !bool_decide_eq_true_2.
    + assert (bool_decide (cts !!! j < cts !!! i) && bool_decide (costs !!! j < costs !!! i) = false) as ->.
      { apply andb_false_iff. rewrite !bool_decide_eq_false. lia. }
      apply IH. apply Exists_cons in Hex as [(_ & ? & ?)|]; [tauto|done].
Qed.

Lemma dominated_scan_miss i js to_remove :
  ¬ Exists (dominated_by cts costs i) js → dominated_scan cts costs i js to_remove = to_remove.
Proof.
  induction js as [|j js IH]; [done|].
  cbn [dominated_scan]. intros Hex. destruct (decide (i = j)) as [->|Hij].
  - apply IH. contradict Hex. by right.
  - assert (bool_decide (cts !!! j < cts !!! i) && bool_decide (costs !!! j < costs !!! i) = false) as ->.
    { apply andb_false_iff. rewrite !bool_decide_eq_false.
      destruct (decide (cts !!! j < cts !!! i)); [|by left].
      destruct (decide (costs !!! j < costs !!! i)); [|by right].
      exfalso. apply Hex. left. split; [congruence|done]. }
    apply IH. contradict Hex. by right.
Qed.

Lemma elem_of_dominated_fold n idxs acc x :
  x ∈ foldl (λ to_remove i, dominated_scan cts costs i (seq 0 n) to_remove) acc idxs
  ↔ x ∈ acc ∨ (x ∈ idxs ∧ Exists (dominated_by cts costs x) (seq 0 n)).
Proof.
  revert acc. induction idxs as [|i idxs IH]; intros acc; simpl.
  - split; [auto|]. intros [?|[?%elem_of_nil _]]; done.
  - rewrite IH. destruct (decide (Exists (dominated_by cts costs i) (seq 0 n))) as [Hex|Hex].
    + rewrite dominated_scan_hit by done. rewrite elem_of_app, list_elem_of_singleton, elem_of_cons.
      intuition (subst; auto; done).
    + rewrite dominated_scan_miss by done. rewrite elem_of_cons.
      intuition (subst; auto; done).
Qed.

Lemma elem_of_dominated_marks n i :
  i ∈ dominated_marks cts costs n ↔
  (i < n)%nat ∧ ∃ j, (j < n)%nat ∧ cts !!! j < cts !!! i ∧ costs !!! j < costs !!! i.
Proof.
  unfold dominated_marks. rewrite elem_of_dominated_fold, elem_of_seq, Exists_exists.
  split.
  - intros [?%elem_of_nil|[? (j & Hj%elem_of_seq & _ & ? & ?)]]; [done|].
    split; [lia|]. exists j. split; [lia|done].
  - intros [? (j & ? & ? & ?)]. right. split; [lia|]. exists j.
    split; [apply elem_of_seq; lia|]. split; [|done]. intros ->. lia.
Qed.

End DominatedMarks.

(** ** Marks of the uniqueness filter *)

Section UniqueMarks.

Variables cts costs : list Z.

Lemma same_point_sym i j : same_point cts costs i j → same_point cts costs j i.
Proof. unfold same_point. by intros [-> ->]. Qed.

Lemma same_point_trans i j k :
  same_point cts costs i j → same_point cts costs j k → same_point cts costs i k.
Proof. unfold same_point. intros [-> ->] [-> ->]. done. Qed.

Lemma unique_scan_spec i js to_remove :
  unique_scan cts costs i js to_remove = spec_unique_scan cts costs i js to_remove.
Proof.
  unfold spec_unique_scan. induction js as [|j js IH]; [done|].
  cbn [unique_scan list_find]. case_bool_decide as Hin.
  - rewrite decide_False by tauto. rewrite IH.
    by destruct (list_find _ js) as [[? ?]|].
  - destruct (decide (same_point cts costs i j)) as [[H1 H2]|Hno].
    + rewrite !bool_decide_eq_true_2 by done.
      rewrite decide_True by done. done.
    + assert (bool_decide (cts !!! i = cts !!! j) && bool_decide (costs !!! i = costs !!! j) = false) as ->.
      { apply andb_false_iff. rewrite !bool_decide_eq_false. unfold same_point in Hno.
        destruct (decide (cts !!! i = cts !!! j)); [|by left]. right. tauto. }
      rewrite decide_False by tauto. rewrite IH.
      by destruct (list_find _ js) as [[? ?]|].
Qed.

Lemma unique_scan_at_most_one i js to_remove :
  ∃ extra, unique_scan cts costs i js to_remove = to_remove ++ extra ∧
           (length extra ≤ 1)%nat.
Proof.
  rewrite unique_scan_spec. unfold spec_unique_scan.
  destruct (list_find _ js) as [[? j]|].
  - exists [j]. split; [done|]. simpl. lia.
  - exists []. split; [by rewrite app_nil_r|]. simpl. lia.
Qed.

Variable n : nat.

Lemma unique_inv_init : unique_inv cts costs n 0 [].
Proof.
  intros j. split; [by intros ?%elem_of_nil|].
  intros [_ (i' & ? & _)]. lia.
Qed.

Lemma unique_inv_step i to_remove :
  (i < n)%nat → unique_inv cts costs n i to_remove →
  unique_inv cts costs n (S i) (unique_scan cts costs i (seq (S i) (n - S i)) to_remove).
Proof.
  intros Hi Hinv. rewrite unique_scan_spec. unfold spec_unique_scan.
  destruct (list_find _ _) as [[idx j0]|] eqn:Hfind.
  - apply list_find_Some in Hfind as (Hidx & [Hj0 Hsame] & Hfirst).
    apply lookup_seq in Hidx as [-> Hidx].
    assert (∀ m, (i < m < S i + idx)%nat →
              m ∈ to_remove ∨ ¬ same_point cts costs i m) as Hbetween.
    { intros m Hm. destruct (decide (m ∈ to_remove)) as [|Hnin]; [by left|right].
      intros Hs. apply (Hfirst (m - S i)%nat m).
      - apply lookup_seq. lia.
      - lia.
      - done. }
    intros j. rewrite elem_of_app, list_elem_of_singleton. split.
    + intros [Hj| ->].
      * apply Hinv in Hj as [? (i' & ? & ? & ? & ?)].
        split; [done|]. exists i'. split_and!; [lia|done..].
      * split; [lia|]. exists i. split_and!; [lia|lia|done|].
        intros m Hm Hs. destruct (Hbetween m Hm) as [Hin|Hne].
        -- apply Hinv in Hin as [_ (i' & ? & ? & ? & Hnone)].
           apply (Hnone i); [lia|]. eapply same_point_trans; [exact Hsame|].
           by apply same_point_sym.
        -- apply Hne. eapply same_point_trans; [exact Hsame|]. by apply same_point_sym.
    + intros [Hjn (i' & Hi' & Hi'j & Hs & Hnone)].
      destruct (decide (i' = i)) as [->|Hne].
      * destruct (Nat.lt_trichotomy j (S i + idx)) as [Hlt|[->|Hgt]].
        -- destruct (Hbetween j ltac:(lia)) as [?|Hns]; [by left|]. done.
        -- by right.
        -- exfalso. apply (Hnone (S i + idx)%nat); [lia|].
           eapply same_point_trans; [|exact Hs]. by apply same_point_sym.
      * left. apply Hinv. split; [done|]. exists i'. split_and!; [lia|done..].
  - pose proof (list_find_None (λ j, (j ∉ to_remove) ∧ same_point cts costs i j)
                  (seq (S i) (n - S i))) as [Hnone' _].
    specialize (Hnone' Hfind). rewrite Forall_forall in Hnone'.
    intros j. split.
    + intros Hj. apply Hinv in Hj as [? (i' & ? & ? & ? & ?)].
      split; [done|]. exists i'. split_and!; [lia|done..].
    + intros [Hjn (i' & Hi' & Hi'j & Hs & Hnone)].
      destruct (decide (i' = i)) as [->|Hne].
      * destruct (decide (j ∈ to_remove)) as [|Hnin]; [done|].
        exfalso. apply (Hnone' j); [apply elem_of_seq; lia|done].
      * apply Hinv. split; [done|]. exists i'. split_and!; [lia|done..].
Qed.

Lemma unique_inv_fold len start to_remove :
  (start + len = n)%nat → unique_inv cts costs n start to_remove →
  unique_inv cts costs n n
    (foldl (λ to_remove i, unique_scan cts costs i (seq (S i) (n - S i)) to_remove)
           to_remove (seq start len)).
Proof.
  revert start to_remove. induction len as [|len IH]; intros start to_remove Hn Hinv.
  - simpl. by replace start with n in Hinv by lia.
  - simpl. apply IH; [lia|]. apply unique_inv_step; [lia|done].
Qed.

Lemma unique_marks_inv : unique_inv cts costs n n (unique_marks cts costs n).
Proof. apply unique_inv_fold; [done|apply unique_inv_init]. Qed.

(** A member with an earlier twin has a nearest earlier twin. *)
Lemma nearest_twin i j :
  (i < j)%nat → same_point cts costs i j → pred_before cts costs j j.
Proof.
  intros Hij Hs.
  assert (∀ t, (t ≤ j)%nat →
            pred_before cts costs j j ∨ ∀ m, (j - t ≤ m < j)%nat → ¬ same_point cts costs m j) as Hscan.
  { induction t as [|t IH]; intros Ht.
    - right. intros m Hm. lia.
    - destruct (IH ltac:(lia)) as [?|Hnone]; [by left|].
      destruct (decide (same_point cts costs (j - S t) j)) as [Hyes|Hno].
      + left. exists (j - S t)%nat. split_and!; [lia|lia|done|].
        intros m Hm. apply Hnone. lia.
      + right. intros m Hm. destruct (decide (m = j - S t)%nat) as [->|]; [done|].
        apply Hnone. lia. }
  destruct (Hscan j (le_n _)) as [?|Hnone]; [done|].
  exfalso. apply (Hnone i); [lia|done].
Qed.

Lemma elem_of_unique_marks j :
  j ∈ unique_marks cts costs n ↔
  (j < n)%nat ∧ ∃ i, (i < j)%nat ∧ same_point cts costs i j.
Proof.
  rewrite (unique_marks_inv j). split.
  - intros [? (i' & _ & ? & ? & _)]. eauto.
  - intros [? (i & Hij & Hs)]. split; [done|].
    destruct (nearest_twin i j Hij Hs) as (i' & ? & ? & ? & ?).
    exists i'. split_and!; [lia|done..].
Qed.

End UniqueMarks.

(** ** The two filters *)

Lemma lookup_completion_times pool cts i x :
  rmap completion_time pool = Ok cts → pool !! i = Some x →
  completion_time x = Ok (cts !!! i).
Proof.
  intros Hcts Hi. destruct (rmap_lookup _ _ _ _ _ Hcts Hi) as (c & Hc & ->).
  by rewrite (list_lookup_total_correct _ _ _ Hc).
Qed.

Lemma lookup_costs_of pool i x :
  pool !! i = Some x → costs_of pool !!! i = cost (summary x).
Proof.
  intros Hi. apply list_lookup_total_correct.
  unfold costs_of. by rewrite list_lookup_fmap, Hi.
Qed.

Lemma filter_dominated_unfold pool :
  filter_dominated pool =
  cts ← rmap completion_time pool ;
  Ok (remove_marked (dominated_marks cts (costs_of pool) (length pool)) pool).
Proof.
  unfold filter_dominated. destruct (rmap completion_time pool); simpl; try done.
  by rewrite pop_all_remove_marked.
Qed.

Lemma filter_unique_unfold pool :
  filter_unique pool =
  cts ← rmap completion_time pool ;
  Ok (remove_marked (unique_marks cts (costs_of pool) (length pool)) pool).
Proof.
  unfold filter_unique. destruct (rmap completion_time pool); simpl; try done.
  by rewrite pop_all_remove_marked.
Qed.

Lemma filter_dominated_sublist pool fd :
  filter_dominated pool = Ok fd → fd `sublist_of` pool.
Proof.
  rewrite filter_dominated_unfold. intros (cts & _ & [= <-])%bind_Ok.
  apply keep_from_sublist.
Qed.

Lemma filter_unique_sublist pool res :
  filter_unique pool = Ok res → res `sublist_of` pool.
Proof.
  rewrite filter_unique_unfold. intros (cts & _ & [= <-])%bind_Ok.
  apply keep_from_sublist.
Qed.

(** The dominance filter keeps, in order, exactly the members that no
    member of the pool strictly dominates. *)
Lemma filter_dominated_filter pool fd :
  filter_dominated pool = Ok fd →
  fd = filter (λ x, ¬ Exists (λ y, strictly_dominates y x) pool) pool.
Proof.
  rewrite filter_dominated_unfold. intros (cts & Hcts & [= <-])%bind_Ok.
  apply keep_from_filter. intros i x Hi. simpl.
  rewrite elem_of_dominated_marks. split.
  - intros [_ (j & Hj & Hct & Hcost)] Hno. apply Hno, Exists_exists.
    destruct (lookup_lt_is_Some_2 pool j Hj) as [y Hy].
    exists y. split; [by eapply list_elem_of_lookup_2|].
    exists (cts !!! j), (cts !!! i).
    rewrite (lookup_costs_of _ _ _ Hy) in Hcost.
    rewrite (lookup_costs_of _ _ _ Hi) in Hcost.
    split_and!; try done; by eapply lookup_completion_times.
  - intros Hex%dec_stable. apply Exists_exists in Hex as (y & Hy & cy & cx & Hcy & Hcx & ? & ?).
    apply list_elem_of_lookup_1 in Hy as [j Hj].
    split; [by eapply lookup_lt_Some|]. exists j. split; [by eapply lookup_lt_Some|].
    rewrite (lookup_costs_of _ _ _ Hj), (lookup_costs_of _ _ _ Hi).
    rewrite (lookup_completion_times _ _ _ _ Hcts Hj) in Hcy.
    rewrite (lookup_completion_times _ _ _ _ Hcts Hi) in Hcx.
    by injection Hcy as ->; injection Hcx as ->.
Qed.

(** Small runs of the two filters. *)

Example filter_dominated_keeps_ties :
  filter_dominated [point 1 5 0; point 1 4 0; point 2 4 0; point 2 3 0]
  = Ok [point 1 5 0; point 1 4 0; point 2 4 0; point 2 3 0].
Proof. vm_compute. reflexivity. Qed.

Example filter_dominated_drops_beaten :
  filter_dominated [point 1 3 0; point 2 4 0; point 3 2 0; point 4 3 0]
  = Ok [point 1 3 0; point 3 2 0].
Proof. vm_compute. reflexivity. Qed.

Example filter_unique_scattered_copies :
  filter_unique [point 1 9 0; point 2 7 0; point 1 9 0; point 3 8 0; point 1 9 0; point 1 9 0]
  = Ok [point 1 9 0; point 2 7 0; point 3 8 0].
Proof. vm_compute. reflexivity. Qed.

Example filter_raises_without_routes :
  filter_unique [point 1 9 0; set_origin None (failing_solve sample_instance)]
  = Raise ValueError.
Proof. vm_compute. reflexivity. Qed.

(** ** The stable sort *)

Lemma insert_by_key_perm {A} (x : Z * A) l : insert_by_key x l ≡ₚ x :: l.
Proof.
  induction l as [|y l IH]; [done|]. cbn [insert_by_key].
  case_bool_decide; [done|]. rewrite IH. apply Permutation_swap.
Qed.

Lemma sort_by_key_perm {A} (l : list (Z * A)) : sort_by_key l ≡ₚ l.
Proof.
  induction l as [|x l IH]; [done|]. unfold sort_by_key in *. simpl.
  by rewrite insert_by_key_perm, IH.
Qed.

Lemma insert_by_key_sorted {A} (x : Z * A) l :
  StronglySorted (λ a b, a.1 ≤ b.1) l →
  StronglySorted (λ a b, a.1 ≤ b.1) (insert_by_key x l).
Proof.
  induction 1 as [|y l Hl IH Hy]; cbn [insert_by_key].
  - repeat constructor.
  - case_bool_decide as Hxy.
    + constructor; [by constructor|]. constructor; [done|].
      eapply Forall_impl; [exact Hy|]. simpl. intros; lia.
    + constructor; [done|]. rewrite insert_by_key_perm. constructor; [lia|done].
Qed.

Lemma sort_by_key_sorted {A} (l : list (Z * A)) :
  StronglySorted (λ a b, a.1 ≤ b.1) (sort_by_key l).
Proof.
  induction l as [|x l IH]; [constructor|]. by apply insert_by_key_sorted.
Qed.

(** Stability: members with equal keys keep their relative order. *)
Lemma insert_by_key_stable {A} (x : Z * A) l k :
  filter (λ p, p.1 = k) (insert_by_key x l) = filter (λ p, p.1 = k) (x :: l).
Proof.
  induction l as [|y l IH]; [done|]. cbn [insert_by_key].
  case_bool_decide as Hxy; [done|].
  rewrite filter_cons, IH, !filter_cons.
  destruct (decide (y.1 = k)), (decide (x.1 = k)); try done. lia.
Qed.

Lemma sort_by_key_stable {A} (l : list (Z * A)) k :
  filter (λ p, p.1 = k) (sort_by_key l) = filter (λ p, p.1 = k) l.
Proof.
  induction l as [|x l IH]; [done|]. unfold sort_by_key in *. simpl.
  rewrite insert_by_key_stable, !filter_cons, IH. done.
Qed.

Lemma elem_of_sublist {A} (l1 l2 : list A) x : l1 `sublist_of` l2 → x ∈ l1 → x ∈ l2.
Proof.
  intros Hsub Hx. eapply elem_of_submseteq; [exact Hx|]. by apply sublist_submseteq.
Qed.

Lemma StronglySorted_sublist {A} (R : relation A) l1 l2 :
  l1 `sublist_of` l2 → StronglySorted R l2 → StronglySorted R l1.
Proof.
  induction 1 as [|x l1 l2 Hsub IH|x l1 l2 Hsub IH]; intros Hs.
  - constructor.
  - apply StronglySorted_inv in Hs as [Hs Hx]. constructor; [by apply IH|].
    rewrite Forall_forall in Hx |- *. intros y Hy. apply Hx. by eapply elem_of_sublist.
  - apply StronglySorted_inv in Hs as [Hs _]. by apply IH.
Qed.

Lemma rmap_keyed (ps : list (Z * solution)) :
  Forall (λ p, completion_time p.2 = Ok p.1) ps →
  rmap completion_time (ps.*2) = Ok (ps.*1).
Proof.
  induction 1 as [|[k s] ps Hk _ IH]; [done|].
  rewrite !fmap_cons. cbn [rmap fst snd] in *. by rewrite Hk; simpl; rewrite IH.
Qed.

Lemma zip_keyed keys pool :
  rmap completion_time pool = Ok keys →
  Forall (λ p, completion_time p.2 = Ok p.1) (zip keys pool).
Proof.
  revert keys. induction pool as [|s pool IH]; intros keys; simpl.
  - intros [= <-]. constructor.
  - intros (k & Hk & (ks & Hks & [= <-])%bind_Ok)%bind_Ok. simpl.
    constructor; [done|]. by apply IH.
Qed.

Lemma sort_by_completion_sorted pool sorted :
  sort_by_completion pool = Ok sorted →
  ∃ cts, rmap completion_time sorted = Ok cts ∧ StronglySorted Z.le cts.
Proof.
  unfold sort_by_completion. intros (keys & Hkeys & [= <-])%bind_Ok.
  exists ((sort_by_key (zip keys pool)).*1). split.
  - apply rmap_keyed. rewrite sort_by_key_perm. by apply zip_keyed.
  - eapply StronglySorted_fmap; [|apply sort_by_key_sorted]. done.
Qed.

Lemma sort_by_completion_perm pool sorted :
  sort_by_completion pool = Ok sorted → sorted ≡ₚ pool.
Proof.
  unfold sort_by_completion. intros (keys & Hkeys & [= <-])%bind_Ok.
  rewrite sort_by_key_perm. rewrite snd_zip; [done|].
  by rewrite (rmap_length _ _ _ Hkeys).
Qed.

Lemma filter_keyed (ps : list (Z * solution)) c :
  Forall (λ p, completion_time p.2 = Ok p.1) ps →
  filter (λ s, completion_time s = Ok c) (ps.*2) = (filter (λ p, p.1 = c) ps).*2.
Proof.
  induction 1 as [|[k s] ps Hk _ IH]; [done|].
  rewrite fmap_cons, !filter_cons, IH. cbn [fst snd] in *. rewrite Hk.
  destruct (decide (Ok k = Ok c)) as [[= ->]|Hne].
  - by rewrite decide_True.
  - rewrite decide_False; [done|]. by intros ->.
Qed.

Lemma sort_by_completion_stable pool sorted c :
  sort_by_completion pool = Ok sorted →
  filter (λ s, completion_time s = Ok c) sorted
  = filter (λ s, completion_time s = Ok c) pool.
Proof.
  unfold sort_by_completion. intros (keys & Hkeys & [= <-])%bind_Ok.
  pose proof (zip_keyed _ _ Hkeys) as Hzip.
  rewrite filter_keyed by (by rewrite sort_by_key_perm).
  rewrite sort_by_key_stable, <- filter_keyed by done.
  rewrite snd_zip; [done|]. by rewrite (rmap_length _ _ _ Hkeys).
Qed.

(** ** The vehicle loop *)

Section ShrinkLoop.

Variable body : vehicle → result (option vehicle).

Lemma shrink_list_snoc vs v :
  shrink_list body (vs ++ [v]) =
  r ← body v ; vs' ← shrink_list body vs ; Ok (vs' ++ option_list r).
Proof.
  induction vs as [|a vs IH]; simpl.
  - destruct (body v) as [[?|]| |]; done.
  - rewrite IH. destruct (body v) as [r| |]; simpl; [|done..].
    destruct (shrink_list body vs) as [vs'| |]; simpl; [|done..].
    destruct (body a) as [ra| |]; simpl; [|done..].
    by rewrite app_assoc.
Qed.

Lemma shrink_loop_prefix pre suf :
  shrink_loop body (reverse (seq 0 (length pre))) (pre ++ suf) =
  pre' ← shrink_list body pre ; Ok (pre' ++ suf).
Proof.
  revert suf. induction pre as [|v pre IH] using rev_ind; intros suf; [done|].
  rewrite length_app, seq_app, reverse_app. simpl.
  rewrite <- app_assoc. simpl.
  rewrite list_lookup_middle by done.
  rewrite shrink_list_snoc. destruct (body v) as [[v'|]| |]; simpl; [| |done..].
  - replace (<[length pre:=v']> (pre ++ v :: suf)) with (pre ++ v' :: suf).
    2:{ rewrite insert_app_r_alt by done. by rewrite Nat.sub_diag. }
    rewrite IH. destruct (shrink_list body pre); simpl; [|done..].
    by rewrite <- app_assoc.
  - replace (delete (length pre) (pre ++ v :: suf)) with (pre ++ suf).
    2:{ rewrite delete_middle. done. }
    rewrite IH. destruct (shrink_list body pre); simpl; [|done..].
    by rewrite app_nil_r.
Qed.

Lemma shrink_vehicles_list vs : shrink_vehicles body vs = shrink_list body vs.
Proof.
  unfold shrink_vehicles. rewrite <- (app_nil_r vs) at 2.
  rewrite shrink_loop_prefix. destruct (shrink_list body vs); simpl; [|done..].
  by rewrite app_nil_r.
Qed.

Lemma shrink_list_Ok vs vs' :
  shrink_list body vs = Ok vs' → Forall (λ v, ∃ r, body v = Ok r) vs.
Proof.
  revert vs'. induction vs as [|v vs IH]; intros vs'; simpl; [constructor|].
  intros (rest & Hrest & (r & Hr & _)%bind_Ok)%bind_Ok.
  constructor; eauto.
Qed.

Lemma shrink_list_not_Timeout vs :
  Forall (λ v, body v ≠ Timeout) vs → shrink_list body vs ≠ Timeout.
Proof.
  induction 1 as [|v vs Hv _ IH]; simpl; [done|].
  destruct (shrink_list body vs); simpl; [|done..].
  destruct (body v); simpl; done.
Qed.

End ShrinkLoop.

Lemma shrink_list_ext body1 body2 vs :
  Forall (λ v, body1 v = body2 v) vs → shrink_list body1 vs = shrink_list body2 vs.
Proof. induction 1 as [|v vs Hv _ IH]; simpl; [done|]. by rewrite IH, Hv. Qed.

(** ** Completion times and bounds *)

Lemma rmap_not_Timeout {A B} (f : A → result B) l :
  (∀ x, f x ≠ Timeout) → rmap f l ≠ Timeout.
Proof.
  intros Hf. induction l as [|x l IH]; simpl; [done|].
  specialize (Hf x). destruct (f x); simpl; [|done..].
  destruct (rmap f l); simpl; done.
Qed.

Lemma rmap_Forall2 {A B} (f : A → result B) l ys :
  rmap f l = Ok ys → Forall2 (λ x y, f x = Ok y) l ys.
Proof.
  revert ys. induction l as [|x l IH]; intros ys; simpl.
  - intros [= <-]. constructor.
  - intros (y & Hy & (ys' & Hys & [= <-])%bind_Ok)%bind_Ok. constructor; auto.
Qed.

Lemma last_arrivals_not_Timeout rs : rmap last_arrival rs ≠ Timeout.
Proof.
  apply rmap_not_Timeout. intros r. unfold last_arrival. by destruct (last (steps r)).
Qed.

Lemma completion_time_not_Timeout sol : completion_time sol ≠ Timeout.
Proof.
  unfold completion_time.
  pose proof (last_arrivals_not_Timeout (routes sol)) as H.
  destruct (rmap last_arrival (routes sol)) as [[|? ?]| |]; simpl; done.
Qed.

Lemma foldl_min_le x xs : foldl Z.min x xs ≤ x.
Proof.
  revert x. induction xs as [|a xs IH]; intros x; simpl; [lia|].
  specialize (IH (Z.min x a)). lia.
Qed.


Lemma foldl_max_ge x xs : x ≤ foldl Z.max x xs.
Proof.
  revert x. induction xs as [|a xs IH]; intros x; simpl; [lia|].
  specialize (IH (Z.max x a)). lia.
Qed.

Lemma py_min_le_py_max xs a b : py_min xs = Ok a → py_max xs = Ok b → a ≤ b.
Proof.
  destruct xs as [|x xs]; simpl; [done|]. intros [= <-] [= <-].
  pose proof (foldl_min_le x xs). pose proof (foldl_max_ge x xs). lia.
Qed.


(** ** The dichotomic search *)

Lemma shrink_dichotomy_not_Timeout candidate latest v :
  shrink_dichotomy candidate latest v ≠ Timeout.
Proof.
  unfold shrink_dichotomy.
  destruct (unpack2 (get_time_window v latest)) as [[tw0 tw1]| |] eqn:Hu; simpl; [|done|].
  - case_bool_decide; [done|]. destruct (time_window v) as [tw|]; [|done].
    unfold set_item1. by case_decide.
  - unfold unpack2 in Hu. by destruct (get_time_window v latest) as [|? [|? [|? ?]]].
Qed.


Section Dichotomy.

Variable solve : instance → solution.
Variable init_input : instance.

Lemma dichotomy_iter_Break earliest latest solutions :
  dichotomy_iter solve init_input earliest latest solutions = Ok Break ↔
  (earliest + latest) `div` 2 = earliest ∨ (earliest + latest) `div` 2 = latest.
Proof.
  unfold dichotomy_iter. case_bool_decide as Hc; [done|].
  split; [|done]. intros (vs & _ & (ct & _ & Hend)%bind_Ok)%bind_Ok.
  by case_bool_decide.
Qed.


Lemma dichotomy_iter_Continue earliest latest solutions earliest' latest' solutions' :
  let candidate := (earliest + latest) `div` 2 in
  dichotomy_iter solve init_input earliest latest solutions
    = Ok (Continue earliest' latest' solutions') →
  candidate ≠ earliest ∧ candidate ≠ latest ∧
  ∃ vs, shrink_vehicles (shrink_dichotomy candidate latest) (vehicles init_input) = Ok vs ∧
    let probe := solve (set_vehicles vs init_input) in
    (unassigned (summary probe) = Some 0 ∧ earliest' = earliest ∧ latest' = candidate ∧
       solutions' = solutions ++ [set_origin (Some Dichotomy) probe]) ∨
    (unassigned (summary probe) ≠ Some 0 ∧ earliest' = candidate ∧ latest' = latest ∧
       solutions' = solutions).
Proof.
  intros candidate. unfold dichotomy_iter. fold candidate.
  case_bool_decide as Hc; [done|].
  intros (vs & Hvs & (ct & _ & Hend)%bind_Ok)%bind_Ok.
  split; [tauto|]. split; [tauto|]. exists vs. split; [done|].
  case_bool_decide; injection Hend as <- <- <-; [left|right]; done.
Qed.

Lemma dichotomy_iter_not_Timeout earliest latest solutions :
  dichotomy_iter solve init_input earliest latest solutions ≠ Timeout.
Proof.
  unfold dichotomy_iter. case_bool_decide; [done|].
  set (candidate := (earliest + latest) `div` 2).
  assert (shrink_list (shrink_dichotomy candidate latest) (vehicles init_input)
          ≠ Timeout) as Hs.
  { apply shrink_list_not_Timeout, Forall_forall. intros v _.
    apply shrink_dichotomy_not_Timeout. }
  rewrite shrink_vehicles_list.
  destruct (shrink_list _ _) as [vs| |]; simpl; [|done..].
  set (probe := solve (set_vehicles vs init_input)).
  pose proof (completion_time_not_Timeout probe).
  destruct (routes probe); simpl; [by case_bool_decide|].
  destruct (completion_time probe); simpl; [by case_bool_decide|done..].
Qed.



(** More fuel than needed does not change the outcome. *)
Lemma dichotomy_loop_fuel_mono fuel fuel' earliest latest solutions :
  (fuel ≤ fuel')%nat →
  dichotomy_loop solve fuel init_input earliest latest solutions ≠ Timeout →
  dichotomy_loop solve fuel' init_input earliest latest solutions
  = dichotomy_loop solve fuel init_input earliest latest solutions.
Proof.
  revert fuel' earliest latest solutions.
  induction fuel as [|fuel IH]; intros fuel' earliest latest solutions Hle; [done|].
  destruct fuel' as [|fuel']; [lia|]. cbn [dichotomy_loop].
  destruct (dichotomy_iter solve init_input earliest latest solutions)
    as [[|e' l' s']| |]; simpl; try done.
  apply IH. lia.
Qed.

End Dichotomy.



(** ** The backward sweep *)

Section Backward.

Variable solve : instance → solution.

Lemma backward_loop_exit fuel current latest unassigned_seen solutions :
  unassigned_seen ≠ Some 0 →
  backward_loop solve fuel current latest unassigned_seen solutions = Ok solutions.
Proof.
  intros Hne. destruct fuel; cbn [backward_loop]; by rewrite bool_decide_eq_false_2.
Qed.




(** More fuel than needed does not change the outcome of the sweep. *)
Lemma backward_loop_fuel_mono fuel fuel' current latest unassigned_seen solutions :
  (fuel ≤ fuel')%nat →
  backward_loop solve fuel current latest unassigned_seen solutions ≠ Timeout →
  backward_loop solve fuel' current latest unassigned_seen solutions
  = backward_loop solve fuel current latest unassigned_seen solutions.
Proof.
  revert fuel' current latest unassigned_seen solutions.
  induction fuel as [|fuel IH]; intros fuel' current latest unassigned_seen solutions Hle.
  - destruct (decide (unassigned_seen = Some 0)) as [->|Hne].
    + cbn [backward_loop]. by rewrite bool_decide_eq_true_2.
    + intros _. by rewrite !backward_loop_exit.
  - destruct fuel' as [|fuel']; [lia|]. cbn [backward_loop].
    case_bool_decide; [|done].
    destruct (completion_time (solve current)); simpl; try done.
    destruct (shrink_vehicles _ _); simpl; try done.
    apply IH. lia.
Qed.

End Backward.

(** A probe of the sweep that routes nothing stops the sweep with the
    [ValueError] of [max] on an empty sequence; the dichotomic search guards
    the same expression with [if current_sol["routes"]]. *)
Example backward_sweep_unrouted_probe_raises :
  backward_search (stub_solve_unrouted 40 38) 10 sample_instance
    (stub_solve_unrouted 40 38 sample_instance) = Raise ValueError.
Proof. vm_compute. reflexivity. Qed.

(** ** Exceptions of the stages *)


















(** ** The orchestrator *)

Section SolveAsap.

Variable solve : instance → solution.

(** What a successful run of [solve_asap] went through. *)
Lemma solve_asap_Ok fuel p r :
  solve_asap solve fuel p = Ok r →
  ∃ pool sorted fd res,
    sort_by_completion pool = Ok sorted ∧
    filter_dominated sorted = Ok fd ∧
    filter_unique fd = Ok res ∧
    ((return_pareto_front p = true ∧ r = Front (strip_origin <$> res)) ∨
     (return_pareto_front p = false ∧
      ∃ best rest, res = best :: rest ∧
                   r = Best (strip_computing_times (strip_origin best)))).
Proof.
  unfold solve_asap. case_bool_decide.
  { destruct (code _); [destruct (error _)|]; done. }
  case_bool_decide; [done|].
  intros (sols0 & _ & (pool & _ & (sorted & Hsort & (fd & Hfd & (res & Hres &
            (inds & _ & Hret)%bind_Ok)%bind_Ok)%bind_Ok)%bind_Ok)%bind_Ok)%bind_Ok.
  exists pool, sorted, fd, res. split_and!; try done.
  destruct (return_pareto_front p).
  - left. by injection Hret as <-.
  - right. split; [done|]. destruct res as [|best rest]; [done|].
    injection Hret as <-. eauto.
Qed.


(** The fuel only bounds the backward sweep: a run that does not exhaust it
    gives the same outcome with any larger amount. *)
Lemma solve_asap_fuel_mono fuel fuel' p :
  (fuel ≤ fuel')%nat →
  solve_asap solve fuel p ≠ Timeout →
  solve_asap solve fuel' p = solve_asap solve fuel p.
Proof.
  intros Hle. unfold solve_asap. case_bool_decide; [done|].
  case_bool_decide; [done|].
  destruct (dichotomy solve (p_instance p) (solve (p_instance p))) as [sols0| |];
    simpl; try done.
  destruct (pareto_front_more_solution p); [|done].
  unfold backward_search.
  destruct (completion_time (solve (p_instance p))) as [latest| |]; simpl; try done.
  intros Hnt.
  rewrite (backward_loop_fuel_mono solve fuel fuel'); [done|done|].
  intros Hto. by rewrite Hto in Hnt.
Qed.

End SolveAsap.

Lemma completion_time_strip_origin s :
  completion_time (strip_origin s) = completion_time s.
Proof. done. Qed.

Lemma rmap_completion_time_strip l :
  rmap completion_time (strip_origin <$> l) = rmap completion_time l.
Proof.
  induction l as [|s l IH]; [done|].
  rewrite fmap_cons. cbn [rmap]. by rewrite IH, completion_time_strip_origin.
Qed.

(** ** Vehicles without a time window *)

Lemma shrink_backward_needs_window latest vs vs' :
  shrink_vehicles (shrink_backward latest) vs = Ok vs' →
  Forall (λ v, time_window v ≠ None) vs.
Proof.
  rewrite shrink_vehicles_list. intros Hall%shrink_list_Ok.
  eapply Forall_impl; [exact Hall|]. simpl. intros v [r Hr] Hnone.
  unfold shrink_backward in Hr. by rewrite Hnone in Hr.
Qed.

Lemma shrink_dichotomy_needs_window candidate latest vs vs' :
  0 ≤ candidate →
  shrink_vehicles (shrink_dichotomy candidate latest) vs = Ok vs' →
  Forall (λ v, time_window v ≠ None) vs.
Proof.
  intros Hc. rewrite shrink_vehicles_list. intros Hall%shrink_list_Ok.
  eapply Forall_impl; [exact Hall|]. simpl. intros v [r Hr] Hnone.
  unfold shrink_dichotomy, get_time_window in Hr. rewrite Hnone in Hr. simpl in Hr.
  by rewrite bool_decide_eq_false_2 in Hr by lia.
Qed.

(** ** Frontier reduction *)

Lemma rmap_Ok_Forall {A B} (f : A → result B) l ys :
  rmap f l = Ok ys → Forall (λ x, ∃ y, f x = Ok y) l.
Proof.
  intros H%rmap_Forall2. induction H; constructor; eauto.
Qed.

Lemma reduction_no_domination pool fd res x y :
  filter_dominated pool = Ok fd → filter_unique fd = Ok res →
  x ∈ res → y ∈ res → ¬ strictly_dominates y x.
Proof.
  intros Hfd Hres Hx Hy Hdom.
  pose proof (filter_unique_sublist _ _ Hres) as Hsub.
  apply (elem_of_sublist _ _ _ Hsub) in Hx, Hy.
  rewrite (filter_dominated_filter _ _ Hfd) in Hx, Hy.
  apply list_elem_of_filter in Hx as [Hnone _]. apply list_elem_of_filter in Hy as [_ Hy].
  apply Hnone, Exists_exists. eauto.
Qed.

(** * The claims of the specification *)

(** C1: after dominance filtering followed by uniqueness filtering no
    surviving member strictly dominates another one, in the reduced pool and
    in the frontier that [solve_asap] returns; the dominance filter removes
    exactly the members that some member of the pool beats on both axes, so
    a member beaten on one axis only, or tied on an axis, stays. *)
Theorem frontier_has_no_dominated_point :
  (∀ pool fd res,
     filter_dominated pool = Ok fd →
     filter_unique fd = Ok res →
     Forall (λ x, ∃ ct, completion_time x = Ok ct) pool ∧
     fd = filter (λ x, ¬ Exists (λ y, strictly_dominates y x) pool) pool ∧
     ∀ i j x y, i ≠ j → res !! i = Some x → res !! j = Some y →
                ¬ strictly_dominates y x) ∧
  (∀ solve fuel p front,
     solve_asap solve fuel p = Ok (Front front) →
     ∀ i j x y, i ≠ j → front !! i = Some x → front !! j = Some y →
                ¬ strictly_dominates y x).
Proof.
  split.
  - intros pool fd res Hfd Hres. split_and!.
    + unfold filter_dominated in Hfd. apply bind_Ok in Hfd as (cts & Hcts & _).
      by eapply rmap_Ok_Forall.
    + by apply filter_dominated_filter.
    + intros i j x y _ Hx Hy.
      eapply reduction_no_domination; [done|done|by eapply list_elem_of_lookup_2..].
  - intros solve fuel p front Hrun i j x y _ Hx Hy.
    apply solve_asap_Ok in Hrun
      as (pool & sorted & fd & res & _ & Hfd & Hres & [[_ [= ->]]|[_ (? & ? & _ & ?)]]);
      [|done].
    rewrite list_lookup_fmap in Hx, Hy.
    destruct (res !! i) as [x'|] eqn:Hx'; [|done].
    destruct (res !! j) as [y'|] eqn:Hy'; [|done].
    injection Hx as <-. injection Hy as <-.
    change (¬ strictly_dominates y' x').
    eapply reduction_no_domination; [done|done|by eapply list_elem_of_lookup_2..].
Qed.

Lemma frontier_has_no_dominated_point_witness :
  filter_dominated sample_pool = Ok sample_undominated ∧
  filter_unique sample_undominated = Ok sample_frontier ∧
  sample_undominated
    = filter (λ x, ¬ Exists (λ y, strictly_dominates y x) sample_pool) sample_pool ∧
  (∀ i j x y, i ≠ j → sample_frontier !! i = Some x → sample_frontier !! j = Some y →
              ¬ strictly_dominates y x) ∧
  solve_asap (stub_solve 40 30) 20 (sample_problem true true) = Ok (Front sample_front) ∧
  (∀ i j x y, i ≠ j → sample_front !! i = Some x → sample_front !! j = Some y →
              ¬ strictly_dominates y x).
Proof.
  assert (filter_dominated sample_pool = Ok sample_undominated) as H1
    by (vm_compute; reflexivity).
  assert (filter_unique sample_undominated = Ok sample_frontier) as H2
    by (vm_compute; reflexivity).
  assert (solve_asap (stub_solve 40 30) 20 (sample_problem true true)
          = Ok (Front sample_front)) as H3 by (vm_compute; reflexivity).
  destruct frontier_has_no_dominated_point as [Hpool Hfront].
  destruct (Hpool sample_pool sample_undominated sample_frontier H1 H2) as (_ & Heq & Hnd).
  split_and!; [exact H1|exact H2|exact Heq|exact Hnd|exact H3|].
  exact (Hfront _ _ _ _ H3).
Defined.

(** C2: the list that [solve_asap] returns in full-frontier mode is sorted
    by ascending completion time.  The pool is sorted by a stable sort
    (a permutation that keeps the order of members with equal completion
    time), and each filter returns a sublist of its argument. *)
Theorem returned_front_is_sorted
    (solve : instance → solution) (fuel : nat) (p : problem) (front : list solution) :
  solve_asap solve fuel p = Ok (Front front) →
  (∃ cts, rmap completion_time front = Ok cts ∧ StronglySorted Z.le cts) ∧
  (∀ pool sorted, sort_by_completion pool = Ok sorted →
     sorted ≡ₚ pool ∧
     ∀ c, filter (λ s, completion_time s = Ok c) sorted
          = filter (λ s, completion_time s = Ok c) pool) ∧
  (∀ pool fd, filter_dominated pool = Ok fd → fd `sublist_of` pool) ∧
  (∀ pool res, filter_unique pool = Ok res → res `sublist_of` pool).
Proof.
  intros Hrun. split_and!.
  - apply solve_asap_Ok in Hrun
      as (pool & sorted & fd & res & Hsort & Hfd & Hres & [[_ [= ->]]|[_ (? & ? & _ & ?)]]);
      [|done].
    apply sort_by_completion_sorted in Hsort as (cts & Hcts & Hsorted).
    apply filter_dominated_sublist in Hfd. apply filter_unique_sublist in Hres.
    destruct (rmap_sublist completion_time sorted res cts Hcts) as (cts' & Hcts' & Hsub).
    { by etrans. }
    exists cts'. split; [by rewrite rmap_completion_time_strip|].
    by eapply StronglySorted_sublist.
  - intros pool sorted Hsort. split.
    + by apply sort_by_completion_perm.
    + intros c. by apply sort_by_completion_stable.
  - apply filter_dominated_sublist.
  - apply filter_unique_sublist.
Qed.

Lemma returned_front_is_sorted_witness :
  solve_asap (stub_solve 40 30) 20 (sample_problem true true) = Ok (Front sample_front) ∧
  length sample_front = 12%nat ∧
  ∃ cts, rmap completion_time sample_front = Ok cts ∧ StronglySorted Z.le cts.
Proof.
  assert (solve_asap (stub_solve 40 30) 20 (sample_problem true true)
          = Ok (Front sample_front)) as Hrun by (vm_compute; reflexivity).
  split; [exact Hrun|]. split; [reflexivity|].
  exact (proj1 (returned_front_is_sorted _ _ _ _ Hrun)).
Defined.

(** C3: the scan of the uniqueness filter marks, for each [i] in order, the
    first later member that is not yet marked and has the same completion
    time and cost as [i], then stops scanning for that [i]; one scan adds at
    most one mark; popping the marked indices from the highest down removes
    exactly the marked members. *)
Theorem filter_unique_scan_refines_spec (pool : list solution) :
  (∀ cts costs i js to_remove,
     unique_scan cts costs i js to_remove = spec_unique_scan cts costs i js to_remove ∧
     ∃ extra, unique_scan cts costs i js to_remove = to_remove ++ extra ∧
              (length extra ≤ 1)%nat) ∧
  (∀ to_remove, pop_all pool to_remove = remove_marked to_remove pool) ∧
  filter_unique pool =
    cts ← rmap completion_time pool ;
    Ok (remove_marked
          (foldl (λ to_remove i,
                    spec_unique_scan cts (costs_of pool) i
                      (seq (S i) (length pool - S i)) to_remove)
                 [] (seq 0 (length pool)))
          pool).
Proof.
  split_and!.
  - intros. split; [apply unique_scan_spec|apply unique_scan_at_most_one].
  - intros. apply pop_all_remove_marked.
  - rewrite filter_unique_unfold. destruct (rmap completion_time pool) as [cts| |]; try done.
    simpl. do 2 f_equal. unfold unique_marks.
    generalize (@nil nat). induction (seq 0 (length pool)) as [|i idxs IH]; intros acc; [done|].
    simpl. by rewrite unique_scan_spec, IH.
Qed.

(** C4: on an instance whose second vehicle declares no time window both
    searches stop with [KeyError "time_window"] in their vehicle loop: the
    dichotomic search reads the window with a default and then assigns into
    the missing list, the backward sweep indexes the missing key. *)
Theorem missing_window_raises_KeyError :
  dichotomy (stub_solve 40 30) sample_instance_no_window
    (stub_solve 40 30 sample_instance_no_window) = Raise (KeyError "time_window") ∧
  backward_search (stub_solve 40 30) 10 sample_instance_no_window
    (stub_solve 40 30 sample_instance_no_window) = Raise (KeyError "time_window") ∧
  shrink_vehicles (shrink_dichotomy 20 40) (vehicles sample_instance_no_window)
    = Raise (KeyError "time_window") ∧
  shrink_vehicles (shrink_backward 39) (vehicles sample_instance_no_window)
    = Raise (KeyError "time_window").
Proof. split_and!; vm_compute; reflexivity. Qed.












(** C9: removing the origin tag twice is the same as removing it once and
    changes no other field; the single best solution, which also loses the
    solver's timing diagnostics, keeps its routes, cost and unassigned
    count.  A solution returned by [solve_asap] carries no origin tag, so
    removing the tag from it changes nothing. *)
Theorem strip_origin_idempotent_and_preserving
    (solve : instance → solution) (fuel : nat) (p : problem) :
  (∀ s, strip_origin (strip_origin s) = strip_origin s ∧
        routes (strip_origin s) = routes s ∧
        summary (strip_origin s) = summary s ∧
        code (strip_origin s) = code s ∧
        error (strip_origin s) = error s) ∧
  (∀ s, let best := strip_computing_times (strip_origin s) in
        strip_origin best = best ∧
        strip_computing_times best = best ∧
        routes best = routes s ∧
        cost (summary best) = cost (summary s) ∧
        unassigned (summary best) = unassigned (summary s)) ∧
  (∀ front, solve_asap solve fuel p = Ok (Front front) →
            Forall (λ s, strip_origin s = s) front) ∧
  (∀ best, solve_asap solve fuel p = Ok (Best best) → strip_origin best = best).
Proof.
  split_and!.
  - intros s. by split_and!.
  - intros s. by split_and!.
  - intros front Hrun. apply solve_asap_Ok in Hrun
      as (pool & sorted & fd & res & _ & _ & _ & [[_ [= ->]]|[_ (? & ? & _ & ?)]]);
      [|done].
    apply Forall_fmap, Forall_forall. by intros s _.
  - intros best Hrun. apply solve_asap_Ok in Hrun
      as (pool & sorted & fd & res & _ & _ & _ & [[_ ?]|[_ (b & ? & _ & [= ->])]]);
      done.
Qed.

Lemma strip_origin_idempotent_and_preserving_witness :
  solve_asap (stub_solve 40 30) 20 (sample_problem true true) = Ok (Front sample_front) ∧
  solve_asap (stub_solve 40 30) 20 (sample_problem false false) = Ok (Best sample_best) ∧
  Forall (λ s, strip_origin s = s) sample_front ∧
  strip_origin sample_best = sample_best.
Proof.
  assert (solve_asap (stub_solve 40 30) 20 (sample_problem true true)
          = Ok (Front sample_front)) as Hfront by (vm_compute; reflexivity).
  assert (solve_asap (stub_solve 40 30) 20 (sample_problem false false)
          = Ok (Best sample_best)) as Hbest by (vm_compute; reflexivity).
  split; [exact Hfront|]. split; [exact Hbest|]. split.
  - exact (proj1 (proj2 (proj2
             (strip_origin_idempotent_and_preserving _ _ _))) _ Hfront).
  - exact (proj2 (proj2 (proj2
             (strip_origin_idempotent_and_preserving _ _ _))) _ Hbest).
Defined.

(** C10: one call of the uniqueness filter leaves no two distinct members
    with the same completion time and the same cost, however many copies of
    a point the pool holds. *)
Theorem filter_unique_deduplicates (pool res : list solution) :
  filter_unique pool = Ok res →
  ∀ p q x y, p ≠ q → res !! p = Some x → res !! q = Some y →
             ¬ (completion_time x = completion_time y ∧
                cost (summary x) = cost (summary y)).
Proof.
  rewrite filter_unique_unfold. intros (cts & Hcts & [= <-])%bind_Ok.
  assert (∀ p q x y, (p < q)%nat →
            remove_marked (unique_marks cts (costs_of pool) (length pool)) pool !! p = Some x →
            remove_marked (unique_marks cts (costs_of pool) (length pool)) pool !! q = Some y →
            ¬ (completion_time x = completion_time y ∧
               cost (summary x) = cost (summary y))) as Hlt.
  { intros p q x y Hpq Hx Hy [Hct Hcost].
    destruct (keep_from_lookup_lt _ _ _ _ _ _ _ Hx Hy Hpq)
      as (i & j & Hij & Hi & Hj & _ & Hjm).
    apply Hjm. simpl. apply elem_of_unique_marks.
    split; [by eapply lookup_lt_Some|]. exists i. split; [done|]. split.
    - rewrite (lookup_completion_times _ _ _ _ Hcts Hi) in Hct.
      rewrite (lookup_completion_times _ _ _ _ Hcts Hj) in Hct. by injection Hct.
    - by rewrite (lookup_costs_of _ _ _ Hi), (lookup_costs_of _ _ _ Hj). }
  intros p q x y Hpq Hx Hy [Hct Hcost].
  destruct (Nat.lt_trichotomy p q) as [?|[?|?]]; [|done|].
  - by apply (Hlt p q x y).
  - by apply (Hlt q p y x).
Qed.

Lemma filter_unique_deduplicates_witness :
  filter_unique sample_undominated = Ok sample_frontier ∧
  ∀ p q x y, p ≠ q → sample_frontier !! p = Some x → sample_frontier !! q = Some y →
             ¬ (completion_time x = completion_time y ∧
                cost (summary x) = cost (summary y)).
Proof.
  assert (filter_unique sample_undominated = Ok sample_frontier) as H
    by (vm_compute; reflexivity).
  split; [exact H|].
  exact (filter_unique_deduplicates sample_undominated sample_frontier H).
Defined.


(** * Further properties of the code *)


(** ** The uniqueness filter keeps first occurrences *)

Lemma point_of_completion x c :
  completion_time x = Ok c → point_of x = (Ok c, cost (summary x)).
Proof. unfold point_of. by intros ->. Qed.

Lemma same_point_point_of pool cts i j x y :
  rmap completion_time pool = Ok cts →
  pool !! i = Some x → pool !! j = Some y →
  same_point cts (costs_of pool) i j ↔ point_of x = point_of y.
Proof.
  intros Hcts Hi Hj. unfold same_point, point_of.
  rewrite (lookup_completion_times _ _ _ _ Hcts Hi).
  rewrite (lookup_completion_times _ _ _ _ Hcts Hj).
  rewrite (lookup_costs_of _ _ _ Hi), (lookup_costs_of _ _ _ Hj).
  split; [intros [-> ->]; done|]. intros [= -> ->]. done.
Qed.

Lemma keep_from_first_occurrences pool cts pre suf seen :
  rmap completion_time pool = Ok cts →
  pool = pre ++ suf →
  (∀ pt, pt ∈ seen ↔ ∃ x, x ∈ pre ∧ point_of x = pt) →
  keep_from (unique_marks cts (costs_of pool) (length pool)) (length pre) suf
  = first_occurrences seen suf.
Proof.
  intros Hcts. revert pre seen.
  induction suf as [|x suf IH]; intros pre seen Hpool Hseen; [done|].
  cbn [keep_from first_occurrences].
  assert (pool !! length pre = Some x) as Hx.
  { rewrite Hpool. by apply list_lookup_middle. }
  assert (length pre ∈ unique_marks cts (costs_of pool) (length pool)
          ↔ point_of x ∈ seen) as Hmark.
  { rewrite elem_of_unique_marks, Hseen. split.
    - intros [_ (i & Hi & Hs)].
      assert (is_Some (pre !! i)) as [y Hy] by (by apply lookup_lt_is_Some_2).
      exists y. split; [by eapply list_elem_of_lookup_2|].
      eapply (same_point_point_of pool cts i (length pre)); [done| |done|done].
      rewrite Hpool. by apply lookup_app_l_Some.
    - intros (y & [i Hi]%list_elem_of_lookup_1 & Hy).
      split; [by eapply lookup_lt_Some|]. exists i.
      split; [by eapply lookup_lt_Some|].
      eapply (same_point_point_of pool cts i (length pre)); [done| |done|done].
      rewrite Hpool. by apply lookup_app_l_Some. }
  rewrite (bool_decide_ext _ _ Hmark).
  assert (length (pre ++ [x]) = S (length pre)) as Hlen
    by (rewrite length_app; simpl; lia).
  case_bool_decide as Hin.
  - rewrite <- Hlen. apply IH; [by rewrite <- app_assoc|].
    intros pt. rewrite Hseen. setoid_rewrite elem_of_app.
    setoid_rewrite list_elem_of_singleton. split.
    + intros (y & ? & ?). eauto.
    + intros (y & [?| ->] & Hy); [eauto|]. apply Hseen. by rewrite <- Hy.
  - f_equal. rewrite <- Hlen. apply IH; [by rewrite <- app_assoc|].
    intros pt. rewrite elem_of_cons, Hseen. setoid_rewrite elem_of_app.
    setoid_rewrite list_elem_of_singleton. split.
    + intros [->|(y & ? & ?)]; eauto.
    + intros (y & [?| ->] & Hy); [right; eauto|by left].
Qed.

Lemma filter_unique_first_occurrences pool res :
  filter_unique pool = Ok res → res = first_occurrences [] pool.
Proof.
  rewrite filter_unique_unfold. intros (cts & Hcts & [= <-])%bind_Ok.
  apply (keep_from_first_occurrences pool cts [] pool []); [done|done|].
  intros pt. split; [by intros ?%elem_of_nil|]. by intros (? & ?%elem_of_nil & _).
Qed.

Lemma filter_unique_Ok_iff pool :
  (∃ res, filter_unique pool = Ok res) ↔ ∃ cts, rmap completion_time pool = Ok cts.
Proof.
  rewrite filter_unique_unfold. split.
  - intros (res & (cts & ? & _)%bind_Ok). eauto.
  - intros (cts & ->). simpl. eauto.
Qed.

Lemma filter_dominated_Ok_iff pool :
  (∃ fd, filter_dominated pool = Ok fd) ↔ ∃ cts, rmap completion_time pool = Ok cts.
Proof.
  rewrite filter_dominated_unfold. split.
  - intros (res & (cts & ? & _)%bind_Ok). eauto.
  - intros (cts & ->). simpl. eauto.
Qed.

Lemma first_occurrences_sublist seen l : first_occurrences seen l `sublist_of` l.
Proof.
  revert seen. induction l as [|x l IH]; intros seen; [done|].
  cbn [first_occurrences]. case_bool_decide; by constructor.
Qed.

Lemma first_occurrences_ext seen1 seen2 l :
  (∀ y, y ∈ l → point_of y ∈ seen1 ↔ point_of y ∈ seen2) →
  first_occurrences seen1 l = first_occurrences seen2 l.
Proof.
  revert seen1 seen2. induction l as [|x l IH]; intros seen1 seen2 Hagree; [done|].
  cbn [first_occurrences].
  rewrite (bool_decide_ext _ _ (Hagree x (list_elem_of_here _ _))).
  case_bool_decide.
  - apply IH. intros y Hy. apply Hagree. by right.
  - f_equal. apply IH. intros y Hy. rewrite !elem_of_cons.
    rewrite (Hagree y) by (by right). done.
Qed.

Lemma first_occurrences_idemp seen l :
  first_occurrences seen (first_occurrences seen l) = first_occurrences seen l.
Proof.
  revert seen. induction l as [|x l IH]; intros seen; [done|].
  cbn [first_occurrences]. case_bool_decide as Hin; [apply IH|].
  cbn [first_occurrences]. rewrite bool_decide_eq_false_2 by done.
  by rewrite IH.
Qed.

(** No point is lost: every member has a twin among the first occurrences,
    unless its point was seen before. *)
Lemma first_occurrences_covers seen l x :
  x ∈ l → point_of x ∉ seen →
  ∃ y, y ∈ first_occurrences seen l ∧ point_of y = point_of x.
Proof.
  revert seen. induction l as [|a l IH]; intros seen Hx Hseen; [by apply elem_of_nil in Hx|].
  cbn [first_occurrences]. apply elem_of_cons in Hx as [->|Hx].
  - rewrite bool_decide_eq_false_2 by done. exists a. split; [by left|done].
  - case_bool_decide as Ha; [by apply IH|].
    destruct (decide (point_of x = point_of a)) as [Heq|Hne].
    + exists a. split; [by left|done].
    + destruct (IH (point_of a :: seen) Hx) as (y & Hy & Hpt).
      { rewrite elem_of_cons. intros [?|?]; done. }
      exists y. split; [by right|done].
Qed.

(** The first occurrences have pairwise different points. *)
Lemma first_occurrences_distinct seen l i j x y :
  first_occurrences seen l !! i = Some x →
  first_occurrences seen l !! j = Some y →
  (i < j)%nat → point_of x ≠ point_of y ∧ point_of x ∉ seen.
Proof.
  revert seen i j. induction l as [|a l IH]; intros seen i j; [done|].
  cbn [first_occurrences]. case_bool_decide as Ha; [apply IH|].
  assert (∀ k z, first_occurrences (point_of a :: seen) l !! k = Some z →
            point_of z ≠ point_of a ∧ point_of z ∉ seen) as Hlater.
  { clear IH. generalize (point_of a :: seen) (list_elem_of_here (point_of a) seen)
      (λ pt (H : pt ∈ seen), list_elem_of_further pt (point_of a) seen H).
    intros seen' Hpa Hsub. revert seen' Hpa Hsub.
    induction l as [|b l IHl]; intros seen' Hpa Hsub k z; [done|].
    cbn [first_occurrences]. case_bool_decide as Hb.
    - by apply IHl.
    - destruct k as [|k]; simpl.
      + intros [= <-]. split; [by intros Heq; rewrite Heq in Hb|].
        intros Hin. by apply Hb, Hsub.
      + apply IHl; [by right|]. intros pt Hpt. right. by apply Hsub. }
  destruct i as [|i], j as [|j]; simpl; try (intros; lia).
  - intros [= <-] Hy _. split; [|done].
    destruct (Hlater _ _ Hy) as [Hne _]. by intros Heq; rewrite Heq in Hne.
  - intros Hx Hy Hij. destruct (IH (point_of a :: seen) i j Hx Hy ltac:(lia)) as [Hne Hnin].
    split; [done|]. intros Hin. apply Hnin. by right.
Qed.

(** A filter whose test looks at the point only commutes with taking first
    occurrences. *)
Lemma first_occurrences_filter (P : solution → Prop) `{!∀ x, Decision (P x)} seen l :
  (∀ x y, point_of x = point_of y → P x → P y) →
  filter P (first_occurrences seen l) = first_occurrences seen (filter P l).
Proof.
  intros HP. revert seen. induction l as [|x l IH]; intros seen; [done|].
  cbn [first_occurrences]. rewrite filter_cons.
  case_bool_decide as Hin; destruct (decide (P x)) as [Hx|Hx].
  - cbn [first_occurrences]. rewrite bool_decide_eq_true_2 by done. apply IH.
  - apply IH.
  - rewrite filter_cons_True by done. cbn [first_occurrences].
    rewrite bool_decide_eq_false_2 by done. by rewrite IH.
  - rewrite filter_cons_False by done. rewrite IH.
    apply first_occurrences_ext. intros y [Hy _]%list_elem_of_filter.
    rewrite elem_of_cons. split; [|by right].
    intros [Heq|?]; [|done]. exfalso. apply Hx. by apply (HP y x).
Qed.

Lemma filter_all {A} (P : A → Prop) `{!∀ x, Decision (P x)} (l : list A) :
  Forall P l → filter P l = l.
Proof.
  induction 1 as [|x l Hx _ IH]; [done|]. by rewrite filter_cons_True, IH.
Qed.

Lemma filter_agree {A} (P Q : A → Prop) `{!∀ x, Decision (P x)} `{!∀ x, Decision (Q x)}
    (l : list A) :
  (∀ x, x ∈ l → P x ↔ Q x) → filter P l = filter Q l.
Proof.
  induction l as [|x l IH]; intros Hpq; [done|].
  rewrite !filter_cons, IH by (intros; apply Hpq; by right).
  pose proof (Hpq x (list_elem_of_here _ _)) as Hx.
  destruct (decide (P x)) as [HP|HP], (decide (Q x)) as [HQ|HQ]; tauto.
Qed.

Lemma strictly_dominates_point y y' x x' :
  point_of y = point_of y' → point_of x = point_of x' →
  strictly_dominates y x → strictly_dominates y' x'.
Proof.
  unfold point_of, strictly_dominates. intros [= Hy Hcy] [= Hx Hcx].
  rewrite Hy, Hx, Hcy, Hcx. done.
Qed.

Lemma filter_dominated_idemp_aux pool fd :
  filter_dominated pool = Ok fd → filter_dominated fd = Ok fd.
Proof.
  intros Hfd. pose proof (filter_dominated_sublist _ _ Hfd) as Hsub.
  assert (∃ fd', filter_dominated fd = Ok fd') as [fd' Hfd'].
  { apply filter_dominated_Ok_iff.
    assert (∃ cts, rmap completion_time pool = Ok cts) as [cts Hcts]
      by (apply filter_dominated_Ok_iff; eauto).
    destruct (rmap_sublist _ _ _ _ Hcts Hsub) as (cts' & ? & _). eauto. }
  rewrite Hfd'. f_equal. rewrite (filter_dominated_filter _ _ Hfd').
  apply filter_all, Forall_forall. intros x Hx Hex.
  rewrite (filter_dominated_filter _ _ Hfd) in Hx.
  apply list_elem_of_filter in Hx as [Hnone _]. apply Hnone.
  apply Exists_exists in Hex as (y & Hy & Hdom). apply Exists_exists.
  exists y. split; [by eapply elem_of_sublist|done].
Qed.

Lemma filter_unique_idemp_aux pool res :
  filter_unique pool = Ok res → filter_unique res = Ok res.
Proof.
  intros Hres. pose proof (filter_unique_sublist _ _ Hres) as Hsub.
  assert (∃ res', filter_unique res = Ok res') as [res' Hres'].
  { apply filter_unique_Ok_iff.
    assert (∃ cts, rmap completion_time pool = Ok cts) as [cts Hcts]
      by (apply filter_unique_Ok_iff; eauto).
    destruct (rmap_sublist _ _ _ _ Hcts Hsub) as (cts' & ? & _). eauto. }
  rewrite Hres'. f_equal.
  rewrite (filter_unique_first_occurrences _ _ Hres').
  rewrite (filter_unique_first_occurrences _ _ Hres).
  apply first_occurrences_idemp.
Qed.

(** The dominance test gives the same answer against the pool and against
    its first occurrences. *)
Lemma dominated_in_first_occurrences pool x :
  Exists (λ y, strictly_dominates y x) (first_occurrences [] pool)
  ↔ Exists (λ y, strictly_dominates y x) pool.
Proof.
  rewrite !Exists_exists. split.
  - intros (y & Hy & Hdom). exists y. split; [|done].
    eapply elem_of_sublist; [apply first_occurrences_sublist|done].
  - intros (y & Hy & Hdom).
    destruct (first_occurrences_covers [] pool y Hy) as (y' & Hy' & Hpt);
      [apply not_elem_of_nil|].
    exists y'. split; [done|]. by eapply strictly_dominates_point.
Qed.

Lemma filters_commute_aux pool fd res :
  filter_dominated pool = Ok fd → filter_unique fd = Ok res →
  ∃ u, filter_unique pool = Ok u ∧ filter_dominated u = Ok res.
Proof.
  intros Hfd Hres.
  assert (∃ cts, rmap completion_time pool = Ok cts) as [cts Hcts]
    by (apply filter_dominated_Ok_iff; eauto).
  assert (∃ u, filter_unique pool = Ok u) as [u Hu]
    by (apply filter_unique_Ok_iff; eauto).
  exists u. split; [done|].
  assert (∃ r, filter_dominated u = Ok r) as [r Hr].
  { apply filter_dominated_Ok_iff.
    destruct (rmap_sublist _ _ _ _ Hcts (filter_unique_sublist _ _ Hu)) as (? & ? & _).
    eauto. }
  rewrite Hr. f_equal.
  rewrite (filter_dominated_filter _ _ Hr).
  rewrite (filter_unique_first_occurrences _ _ Hu).
  rewrite (filter_unique_first_occurrences _ _ Hres).
  rewrite (filter_dominated_filter _ _ Hfd).
  rewrite <- first_occurrences_filter.
  - apply filter_agree. intros x _. by rewrite dominated_in_first_occurrences.
  - intros x y Hpt Hx Hex. apply Hx.
    apply Exists_exists in Hex as (z & Hz & Hdom). apply Exists_exists.
    exists z. split; [done|]. by eapply strictly_dominates_point.
Qed.

(** A list of integers given by a function has a member where the function
    is least. *)
Lemma exists_least {A} (f : A → Z) (l : list A) :
  l ≠ [] → ∃ x, x ∈ l ∧ ∀ y, y ∈ l → f x ≤ f y.
Proof.
  induction l as [|a l IH]; [done|]. intros _.
  destruct l as [|b l].
  - exists a. split; [by left|]. intros y ->%list_elem_of_singleton. lia.
  - destruct IH as (x & Hx & Hmin); [done|].
    destruct (decide (f a ≤ f x)).
    + exists a. split; [by left|]. intros y [->|Hy]%elem_of_cons; [lia|].
      specialize (Hmin y Hy). lia.
    + exists x. split; [by right|]. intros y [->|Hy]%elem_of_cons; [lia|].
      by apply Hmin.
Qed.

Lemma filter_dominated_keeps_earliest pool fd x cx :
  filter_dominated pool = Ok fd →
  x ∈ pool → completion_time x = Ok cx →
  (∀ y cy, y ∈ pool → completion_time y = Ok cy → cx ≤ cy) →
  x ∈ fd.
Proof.
  intros Hfd Hx Hcx Hmin. rewrite (filter_dominated_filter _ _ Hfd).
  apply list_elem_of_filter. split; [|done].
  intros (y & Hy & cy & cx' & Hcy & Hcx' & Hlt & _)%Exists_exists.
  rewrite Hcx in Hcx'. injection Hcx' as <-. specialize (Hmin y cy Hy Hcy). lia.
Qed.

Lemma filter_dominated_keeps_cheapest pool fd x :
  filter_dominated pool = Ok fd →
  x ∈ pool →
  (∀ y, y ∈ pool → cost (summary x) ≤ cost (summary y)) →
  x ∈ fd.
Proof.
  intros Hfd Hx Hmin. rewrite (filter_dominated_filter _ _ Hfd).
  apply list_elem_of_filter. split; [|done].
  intros (y & Hy & cy & cx' & _ & _ & _ & Hlt)%Exists_exists.
  specialize (Hmin y Hy). lia.
Qed.

Lemma filter_dominated_nonempty pool fd :
  filter_dominated pool = Ok fd → pool ≠ [] → fd ≠ [].
Proof.
  intros Hfd Hne.
  destruct (exists_least (λ s, cost (summary s)) pool Hne) as (x & Hx & Hmin).
  pose proof (filter_dominated_keeps_cheapest pool fd x Hfd Hx Hmin) as Hin.
  intros ->. by apply elem_of_nil in Hin.
Qed.

Lemma filter_unique_nonempty pool res :
  filter_unique pool = Ok res → pool ≠ [] → res ≠ [].
Proof.
  intros ->%filter_unique_first_occurrences Hne.
  destruct pool as [|h t]; [done|]. cbn [first_occurrences].
  by rewrite bool_decide_eq_false_2 by apply not_elem_of_nil.
Qed.

(** ** What the dichotomic search records *)

Section DichotomyRecords.

Variable solve : instance → solution.
Variable data : instance.

Lemma dichotomy_loop_appends fuel earliest latest solutions out :
  dichotomy_loop solve fuel data earliest latest solutions = Ok out →
  ∃ rest, out = solutions ++ rest ∧ Forall (recorded_probe solve data) rest ∧
          (length rest < fuel)%nat.
Proof.
  revert earliest latest solutions.
  induction fuel as [|fuel IH]; intros earliest latest solutions; [done|].
  cbn [dichotomy_loop]. intros (next & Hiter & Hnext)%bind_Ok.
  destruct next as [|e' l' s'].
  - injection Hnext as <-. exists []. rewrite app_nil_r. split_and!; [done|constructor|simpl; lia].
  - apply dichotomy_iter_Continue in Hiter as (_ & _ & vs & Hvs & Hcase).
    apply IH in Hnext as (rest & -> & Hrest & Hlen).
    destruct Hcase as [(Hun & _ & _ & ->)|(_ & _ & _ & ->)].
    + exists (set_origin (Some Dichotomy) (solve (set_vehicles vs data)) :: rest).
      rewrite <- app_assoc. split_and!; [done| |simpl; lia].
      constructor; [|done]. by eexists _, _, vs.
    + exists rest. split_and!; [done|done|lia].
Qed.

(** Halving: when the bounds are at most [2 ^ n] apart, [n + 1] passes are
    enough. *)
Lemma dichotomy_loop_log n earliest latest solutions :
  Z.abs (latest - earliest) ≤ 2 ^ Z.of_nat n →
  dichotomy_loop solve (S n) data earliest latest solutions ≠ Timeout.
Proof.
  revert earliest latest solutions.
  induction n as [|n IH]; intros earliest latest solutions Hd.
  - cbn [dichotomy_loop].
    rewrite (proj2 (dichotomy_iter_Break solve data earliest latest solutions)); [done|].
    pose proof (Z.div_mod (earliest + latest) 2 ltac:(lia)).
    pose proof (Z.mod_pos_bound (earliest + latest) 2 ltac:(lia)).
    change (2 ^ Z.of_nat 0) with 1 in Hd. lia.
  - cbn [dichotomy_loop].
    pose proof (dichotomy_iter_not_Timeout solve data earliest latest solutions) as Hnt.
    destruct (dichotomy_iter solve data earliest latest solutions)
      as [[|e' l' s']| |] eqn:Hiter; [done| |done|done].
    change (dichotomy_loop solve (S n) data e' l' s' ≠ Timeout). apply IH.
    apply dichotomy_iter_Continue in Hiter as (He & Hl & vs & _ & Hcase).
    rewrite Nat2Z.inj_succ, Z.pow_succ_r in Hd by lia.
    pose proof (Z.div_mod (earliest + latest) 2 ltac:(lia)).
    pose proof (Z.mod_pos_bound (earliest + latest) 2 ltac:(lia)).
    destruct Hcase as [(_ & -> & -> & _)|(_ & -> & -> & _)]; lia.
Qed.

End DichotomyRecords.

Lemma dichotomy_records solve data first_solution solutions :
  dichotomy solve data first_solution = Ok solutions →
  ∃ rest, solutions = set_origin (Some Initial) first_solution :: rest ∧
          Forall (recorded_probe solve data) rest.
Proof.
  unfold dichotomy.
  intros (ct0 & _ & (end_dates & _ & (earliest & _ & (latest & _ &
           (m & _ & Hloop)%bind_Ok)%bind_Ok)%bind_Ok)%bind_Ok)%bind_Ok.
  apply dichotomy_loop_appends in Hloop as (rest & -> & Hrest & _).
  by exists rest.
Qed.

(** With no idle vehicle and route ends at most one unit apart the search
    makes no probe. *)
Lemma dichotomy_no_probe solve data first_solution end_dates earliest latest m :
  rmap last_arrival (routes first_solution) = Ok end_dates →
  py_min end_dates = Ok earliest → py_max end_dates = Ok latest →
  earliest_TW latest (vehicles data) = Ok m →
  (length (vehicles data) ≤ length (routes first_solution))%nat →
  latest - earliest ≤ 1 →
  dichotomy solve data first_solution = Ok [set_origin (Some Initial) first_solution].
Proof.
  intros Hends Hmin Hmax Hm Hidle Hd. unfold dichotomy.
  assert (completion_time (set_origin (Some Initial) first_solution) = Ok latest) as ->.
  { unfold completion_time. cbn [routes set_origin]. rewrite Hends. done. }
  cbn [mbind result_bind rbind]. rewrite Hends. cbn [mbind result_bind rbind].
  rewrite Hmin. cbn [mbind result_bind rbind]. rewrite Hmax.
  cbn [mbind result_bind rbind]. rewrite Hm. cbn [mbind result_bind rbind].
  rewrite bool_decide_eq_false_2 by lia.
  unfold dichotomy_fuel. cbn [dichotomy_loop].
  rewrite (proj2 (dichotomy_iter_Break solve data earliest latest _)); [done|].
  pose proof (py_min_le_py_max _ _ _ Hmin Hmax).
  pose proof (Z.div_mod (earliest + latest) 2 ltac:(lia)).
  pose proof (Z.mod_pos_bound (earliest + latest) 2 ltac:(lia)).
  lia.
Qed.

(** ** What the vehicle loops leave behind *)

Lemma shrink_list_Forall body (Q : vehicle → Prop) vs vs' :
  (∀ v v', v ∈ vs → body v = Ok (Some v') → Q v') →
  shrink_list body vs = Ok vs' → Forall Q vs'.
Proof.
  revert vs'. induction vs as [|v vs IH]; intros vs' HQ; simpl.
  - intros [= <-]. constructor.
  - intros (rest & Hrest & (r & Hr & [= <-])%bind_Ok)%bind_Ok.
    apply Forall_app. split.
    + destruct r as [v'|]; simpl; [|constructor].
      constructor; [|constructor]. apply (HQ v); [by left|done].
    + apply IH; [|done]. intros w w' Hw. apply HQ. by right.
Qed.

Lemma shrink_list_length body vs vs' :
  shrink_list body vs = Ok vs' → (length vs' ≤ length vs)%nat.
Proof.
  revert vs'. induction vs as [|v vs IH]; intros vs'; simpl.
  - by intros [= <-].
  - intros (rest & Hrest & (r & Hr & [= <-])%bind_Ok)%bind_Ok.
    rewrite length_app. specialize (IH _ Hrest). destruct r; simpl; lia.
Qed.

(** Two loops in a row: when the second body drops what the first dropped
    and treats an updated vehicle like the original, the first loop can be
    skipped. *)
Lemma shrink_list_compose body1 body2 vs vs1 :
  (∀ v, v ∈ vs → body1 v = Ok None → body2 v = Ok None) →
  (∀ v v1, v ∈ vs → body1 v = Ok (Some v1) → body2 v1 = body2 v) →
  shrink_list body1 vs = Ok vs1 →
  shrink_list body2 vs1 = shrink_list body2 vs.
Proof.
  revert vs1. induction vs as [|v vs IH]; intros vs1 Hnone Hsome; simpl.
  - by intros [= <-].
  - intros (rest & Hrest & (r & Hr & [= <-])%bind_Ok)%bind_Ok.
    assert (shrink_list body2 rest = shrink_list body2 vs) as Hrec.
    { apply IH; [| |done]; intros; [apply Hnone|eapply Hsome]; try done; by right. }
    destruct r as [v1|]; simpl.
    + rewrite Hrec, (Hsome v v1); [done|by left|done].
    + rewrite Hrec, (Hnone v); [|by left|done].
      destruct (shrink_list body2 vs); done.
Qed.

Lemma shrink_backward_Some h v v' :
  shrink_backward h v = Ok (Some v') →
  ∃ tw0 tw1 rest, time_window v = Some (tw0 :: tw1 :: rest) ∧ tw0 ≤ h ∧
                  v' = set_time_window (tw0 :: h :: rest) v.
Proof.
  unfold shrink_backward, item0, set_item1.
  destruct (time_window v) as [[|tw0 [|tw1 rest]]|]; simpl; try done.
  - case_bool_decide; done.
  - case_bool_decide; [done|]. intros [= <-]. exists tw0, tw1, rest.
    split_and!; [done|lia|done].
Qed.

Lemma shrink_backward_None h v :
  shrink_backward h v = Ok None →
  ∃ tw0 rest, time_window v = Some (tw0 :: rest) ∧ h < tw0.
Proof.
  unfold shrink_backward, item0, set_item1.
  destruct (time_window v) as [[|tw0 rest]|]; simpl; try done.
  case_bool_decide; [eauto|]. by case_decide.
Qed.

Lemma shrink_backward_has_window h v :
  has_window v → ∃ r, shrink_backward h v = Ok r.
Proof.
  intros (tw0 & tw1 & rest & Htw). unfold shrink_backward, item0, set_item1.
  rewrite Htw. simpl. case_bool_decide; eauto.
Qed.

Lemma shrink_backward_clamped h v :
  clamped_to h v → shrink_backward h v = Ok (Some v).
Proof.
  intros (tw0 & rest & Htw & Hle). unfold shrink_backward, item0, set_item1.
  rewrite Htw. simpl. rewrite bool_decide_eq_false_2 by lia. simpl.
  destruct v as [tw other]. simpl in Htw. subst tw. done.
Qed.

Lemma shrink_dichotomy_Some c latest v v' :
  shrink_dichotomy c latest v = Ok (Some v') →
  ∃ tw0 tw1, time_window v = Some [tw0; tw1] ∧ tw0 ≤ c ∧
             v' = set_time_window [tw0; c] v.
Proof.
  unfold shrink_dichotomy, get_time_window, unpack2, set_item1.
  destruct (time_window v) as [[|tw0 [|tw1 [|? ?]]]|]; simpl; try done.
  - case_bool_decide; [done|]. intros [= <-]. exists tw0, tw1. split_and!; [done|lia|done].
  - by case_bool_decide.
Qed.

Lemma shrink_dichotomy_pair c latest v a b :
  time_window v = Some [a; b] →
  shrink_dichotomy c latest v = shrink_backward c v.
Proof.
  intros Htw. unfold shrink_dichotomy, shrink_backward, get_time_window.
  rewrite Htw. simpl. by case_bool_decide.
Qed.

Lemma shrink_backward_total h vs :
  Forall has_window vs →
  ∃ vs', shrink_vehicles (shrink_backward h) vs = Ok vs' ∧ Forall (clamped_to h) vs'.
Proof.
  intros Hall. rewrite shrink_vehicles_list.
  assert (∃ vs', shrink_list (shrink_backward h) vs = Ok vs') as [vs' Hvs'].
  { induction Hall as [|v vs Hv _ [rest Hrest]]; simpl; [eauto|].
    rewrite Hrest. destruct (shrink_backward_has_window h v Hv) as [r ->].
    simpl. eauto. }
  exists vs'. split; [done|].
  eapply shrink_list_Forall; [|exact Hvs'].
  intros v v' _ (tw0 & tw1 & rest & _ & Hle & ->)%shrink_backward_Some.
  by exists tw0, rest.
Qed.

Lemma clamped_has_window h v : clamped_to h v → has_window v.
Proof. intros (tw0 & rest & Htw & _). by exists tw0, h, rest. Qed.

(** ** What the backward sweep returns *)

Section BackwardMore.

Variable solve : instance → solution.

Lemma backward_loop_extends fuel current latest unassigned_seen solutions out :
  backward_loop solve fuel current latest unassigned_seen solutions = Ok out →
  ∃ rest, out = solutions ++ rest.
Proof.
  revert current latest unassigned_seen solutions.
  induction fuel as [|fuel IH]; intros current latest unassigned_seen solutions;
    cbn [backward_loop]; case_bool_decide; try done;
    try (intros [= <-]; exists []; by rewrite app_nil_r).
  intros (ct & _ & (vs & _ & Hloop)%bind_Ok)%bind_Ok.
  apply IH in Hloop as [rest ->]. rewrite <- app_assoc. eauto.
Qed.

Lemma backward_loop_first fuel current latest solutions out :
  backward_loop solve fuel current latest (Some 0) solutions = Ok out →
  ∃ rest, out = solutions ++ set_origin (Some BackwardSearch) (solve current) :: rest.
Proof.
  destruct fuel as [|fuel]; [done|]. cbn [backward_loop].
  rewrite bool_decide_eq_true_2 by done.
  intros (ct & _ & (vs & _ & Hloop)%bind_Ok)%bind_Ok.
  apply backward_loop_extends in Hloop as [rest ->].
  rewrite <- app_assoc. eauto.
Qed.

(** A solver that always routes every job keeps the sweep going for ever. *)
Lemma backward_loop_never_returns fuel current latest solutions :
  (∀ inst, unassigned (summary (solve inst)) = Some 0) →
  (∀ inst, ∃ ct, completion_time (solve inst) = Ok ct) →
  Forall has_window (vehicles current) →
  backward_loop solve fuel current latest (Some 0) solutions = Timeout.
Proof.
  intros Hfeasible Hct. revert current latest solutions.
  induction fuel as [|fuel IH]; intros current latest solutions Hwin;
    cbn [backward_loop]; rewrite bool_decide_eq_true_2 by done; [done|].
  destruct (Hct current) as [ct ->]. cbn [mbind result_bind rbind].
  destruct (shrink_backward_total (latest - 1) (vehicles current) Hwin)
    as (vs & -> & Hvs).
  cbn [mbind result_bind rbind]. rewrite Hfeasible. apply IH.
  cbn [vehicles set_vehicles]. eapply Forall_impl; [exact Hvs|].
  apply clamped_has_window.
Qed.

End BackwardMore.

(** ** The stages of the orchestrator *)

Lemma StronglySorted_lookup {A} (R : relation A) l i j a b :
  StronglySorted R l → (i < j)%nat → l !! i = Some a → l !! j = Some b → R a b.
Proof.
  intros Hs. revert i j. induction Hs as [|x l _ IH Hx]; intros i j Hij; [done|].
  destruct i as [|i], j as [|j]; simpl; try lia.
  - intros [= <-] Hb. rewrite Forall_forall in Hx. apply Hx.
    by eapply list_elem_of_lookup_2.
  - apply IH. lia.
Qed.

Section Stages.

Variable solve : instance → solution.

(** What a successful run went through, stage by stage. *)
Lemma solve_asap_stages fuel p r :
  solve_asap solve fuel p = Ok r →
  code (solve (p_instance p)) = Some 0 ∧
  fully_routed (solve (p_instance p)) ∧
  ∃ rest more sorted fd res,
    dichotomy solve (p_instance p) (solve (p_instance p))
      = Ok (set_origin (Some Initial) (solve (p_instance p)) :: rest) ∧
    Forall (recorded_probe solve (p_instance p)) rest ∧
    (if pareto_front_more_solution p
     then backward_search solve fuel (p_instance p) (solve (p_instance p)) = Ok more
     else more = []) ∧
    sort_by_completion
      (set_origin (Some Initial) (solve (p_instance p)) :: rest ++ more) = Ok sorted ∧
    filter_dominated sorted = Ok fd ∧
    filter_unique fd = Ok res ∧
    ((return_pareto_front p = true ∧ r = Front (strip_origin <$> res)) ∨
     (return_pareto_front p = false ∧
      ∃ best tl, res = best :: tl ∧
                 r = Best (strip_computing_times (strip_origin best)))).
Proof.
  unfold solve_asap, fully_routed. set (init := solve (p_instance p)).
  case_bool_decide as Hcode.
  { destruct (code init); [destruct (error init)|]; done. }
  case_bool_decide as Hun; [done|].
  intros (sols0 & Hdich & (pool & Hpool & (sorted & Hsort & (fd & Hfd & (res & Hres &
            (inds & _ & Hret)%bind_Ok)%bind_Ok)%bind_Ok)%bind_Ok)%bind_Ok)%bind_Ok.
  split. { destruct (code init) as [c|]; simpl in Hcode; [|lia]. f_equal. lia. }
  split. { lia. }
  destruct (dichotomy_records _ _ _ _ Hdich) as (rest & -> & Hrest).
  assert (∃ more, (if pareto_front_more_solution p
                   then backward_search solve fuel (p_instance p) init = Ok more
                   else more = []) ∧
                  pool = set_origin (Some Initial) init :: rest ++ more)
    as (more & Hmore & ->).
  { destruct (pareto_front_more_solution p).
    - apply bind_Ok in Hpool as (more & Hmore & [= <-]). by exists more.
    - injection Hpool as <-. exists []. by rewrite app_nil_r. }
  exists rest, more, sorted, fd, res. split_and!; try done.
  destruct (return_pareto_front p).
  - left. by injection Hret as <-.
  - right. split; [done|]. destruct res as [|best tl]; [done|].
    injection Hret as <-. eauto.
Qed.

End Stages.

(** The first member of a sorted pool survives both filters, in first
    place. *)
Lemma reduced_head sorted fd res cts h t :
  rmap completion_time sorted = Ok cts → StronglySorted Z.le cts →
  filter_dominated sorted = Ok fd → filter_unique fd = Ok res →
  sorted = h :: t → ∃ t', res = h :: t'.
Proof.
  intros Hcts Hs Hfd Hres ->.
  assert (∃ ch, completion_time h = Ok ch ∧
                ∀ y cy, y ∈ h :: t → completion_time y = Ok cy → ch ≤ cy)
    as (ch & Hch & Hmin).
  { simpl in Hcts.
    apply bind_Ok in Hcts as (ch & Hch & (ct' & Hct' & [= <-])%bind_Ok).
    exists ch. split; [done|]. apply StronglySorted_inv in Hs as [_ Hall].
    intros y cy [->|Hy]%elem_of_cons Hcy.
    - rewrite Hch in Hcy. injection Hcy as <-. lia.
    - apply list_elem_of_lookup_1 in Hy as [i Hi].
      destruct (rmap_lookup _ _ _ _ _ Hct' Hi) as (c & Hc & Hcy').
      rewrite Hcy in Hcy'. injection Hcy' as <-.
      rewrite Forall_forall in Hall. apply Hall. by eapply list_elem_of_lookup_2. }
  rewrite (filter_unique_first_occurrences _ _ Hres).
  rewrite (filter_dominated_filter _ _ Hfd).
  rewrite filter_cons_True.
  - cbn [first_occurrences].
    rewrite bool_decide_eq_false_2 by apply not_elem_of_nil. eauto.
  - intros (y & Hy & cy & ch' & Hcy & Hch' & Hlt & _)%Exists_exists.
    rewrite Hch in Hch'. injection Hch' as <-. specialize (Hmin y cy Hy Hcy). lia.
Qed.

Lemma sort_by_completion_head pool sorted :
  sort_by_completion pool = Ok sorted → pool ≠ [] → ∃ h t, sorted = h :: t.
Proof.
  intros Hperm%sort_by_completion_perm Hne.
  destruct sorted as [|h t]; [|eauto].
  apply Permutation_nil_l in Hperm. by subst.
Qed.

(** Once the sort has succeeded the two filters cannot raise, and they leave
    a non-empty pool non-empty. *)
Lemma reduction_after_sort pool sorted :
  sort_by_completion pool = Ok sorted →
  ∃ fd res, filter_dominated sorted = Ok fd ∧ filter_unique fd = Ok res ∧
            (pool ≠ [] → res ≠ []).
Proof.
  intros Hsort. destruct (sort_by_completion_sorted _ _ Hsort) as (cts & Hcts & Hs).
  assert (∃ fd, filter_dominated sorted = Ok fd) as [fd Hfd]
    by (apply filter_dominated_Ok_iff; eauto).
  assert (∃ res, filter_unique fd = Ok res) as [res Hres].
  { apply filter_unique_Ok_iff.
    destruct (rmap_sublist _ _ _ _ Hcts (filter_dominated_sublist _ _ Hfd)) as (? & ? & _).
    eauto. }
  exists fd, res. split_and!; [done|done|]. intros Hne.
  destruct (sort_by_completion_head _ _ Hsort Hne) as (h & t & Hht).
  destruct (reduced_head _ _ _ _ _ _ Hcts Hs Hfd Hres Hht) as [t' ->]. done.
Qed.



Lemma recorded_probe_origin solve data s :
  recorded_probe solve data s → origin s = Some Dichotomy.
Proof. by intros (? & ? & ? & _ & -> & _). Qed.

Lemma recorded_probe_routed solve data s :
  recorded_probe solve data s → fully_routed s.
Proof. intros (? & ? & ? & _ & _ & Hun). unfold fully_routed. by rewrite Hun. Qed.

(** ** Splitting [profile:value] tokens *)

Lemma split_on_nonempty sep s : split_on sep s ≠ [].
Proof.
  destruct s as [|c s]; simpl; [done|]. case_decide; [done|].
  by destruct (split_on sep s).
Qed.

Lemma split_on_length sep s : length (split_on sep s) = S (count_char sep s).
Proof.
  induction s as [|c s IH]; simpl; [done|]. case_decide; simpl.
  - by rewrite IH.
  - pose proof (split_on_nonempty sep s). destruct (split_on sep s); simpl in *; [done|lia].
Qed.

Lemma split_on_no_sep sep s : count_char sep s = 0%nat → split_on sep s = [s].
Proof.
  induction s as [|c s IH]; simpl; [done|]. case_decide; [done|].
  intros Hc. by rewrite IH.
Qed.

Lemma split_on_app sep a b :
  count_char sep a = 0%nat →
  split_on sep (a +:+ String sep b) = a :: split_on sep b.
Proof.
  induction a as [|c a IH]; simpl.
  - intros _. by rewrite decide_True.
  - case_decide; [done|]. intros Hc. by rewrite IH.
Qed.

Lemma split_on_cons sep s w ws :
  split_on sep s = w :: ws →
  count_char sep w = 0%nat ∧
  ((ws = [] ∧ s = w) ∨ (∃ s', s = w +:+ String sep s' ∧ split_on sep s' = ws)).
Proof.
  revert w ws. induction s as [|c s IH]; intros w ws; simpl.
  - intros [= <- <-]. split; [done|]. by left.
  - case_decide as Hc.
    + intros [= <- <-]. split; [done|]. right. exists s. by subst.
    + destruct (split_on sep s) as [|w' ws'] eqn:Hs; [by apply split_on_nonempty in Hs|].
      intros [= <- <-]. destruct (IH w' ws' eq_refl) as [Hw Hcase].
      split; [simpl; by rewrite decide_False|].
      destruct Hcase as [[-> ->]|(s' & -> & Hs')]; [by left|right].
      by exists s'.
Qed.

Lemma split_pair_Ok token a b :
  split_pair token = Ok (a, b) ↔
  token = a +:+ ":" +:+ b ∧ count_char ":" a = 0%nat ∧ count_char ":" b = 0%nat.
Proof.
  unfold split_pair. split.
  - destruct (split_on ":" token) as [|w [|w' [|? ?]]] eqn:Hs; try done.
    intros [= <- <-].
    apply split_on_cons in Hs as [Ha [[? _]|(s' & -> & Hs')]]; [done|].
    apply split_on_cons in Hs' as [Hb [[_ ->]|(? & _ & Hs'')]].
    + done.
    + by apply split_on_nonempty in Hs''.
  - intros (-> & Ha & Hb).
    change (a +:+ ":" +:+ b) with (a +:+ String ":" b).
    by rewrite split_on_app, split_on_no_sep.
Qed.

Lemma split_pair_error token :
  split_pair token = Raise ValueError ↔ count_char ":" token ≠ 1%nat.
Proof.
  unfold split_pair. pose proof (split_on_length ":" token) as Hlen.
  destruct (split_on ":" token) as [|w [|w' [|? ?]]]; simpl in Hlen; split;
    try done; try lia; intros; exfalso; lia.
Qed.

Lemma split_pair_cases token :
  (∃ pv, split_pair token = Ok pv) ∨ split_pair token = Raise ValueError.
Proof.
  unfold split_pair. destruct (split_on ":" token) as [|w [|w' [|? ?]]]; eauto.
Qed.

(** ** The routing table of the wrapper *)

Lemma last_cons_cases {A} (x : A) l :
  last (x :: l) = match last l with Some y => Some y | None => Some x end.
Proof. destruct l as [|y l]; [done|]. rewrite last_cons. by destruct (last (y :: l)). Qed.

Lemma last_value_cons profile g groups :
  last_value profile (g :: groups) =
  match last_value profile groups with
  | Some v => Some v
  | None => match entry_of g with
            | Some (p, v) => if decide (p = profile) then Some v else None
            | None => None
            end
  end.
Proof.
  unfold last_value. cbn [omap list_omap].
  destruct (entry_of g) as [[p v]|]; [|by destruct (last _)].
  case_decide; [|by destruct (last _)].
  rewrite last_cons_cases. by destruct (last _).
Qed.

Lemma add_hosts_lookup groups m m' profile :
  add_entries put_host groups m = Ok m' →
  m' !! profile =
  match last_value profile groups with
  | Some v => Some {| host := Some v; port := port (default empty_entry (m !! profile)) |}
  | None => m !! profile
  end.
Proof.
  revert m. induction groups as [|g groups IH]; intros m; simpl.
  - by intros [= <-].
  - intros (token & Htok & ([p v] & Hpv & Hrest)%bind_Ok)%bind_Ok.
    rewrite (IH _ Hrest), last_value_cons.
    assert (entry_of g = Some (p, v)) as ->.
    { destruct g; [done|]. simpl in *. injection Htok as ->. by rewrite Hpv. }
    unfold put_host. destruct (last_value profile groups) as [v'|].
    + f_equal. f_equal. destruct (decide (p = profile)) as [->|Hne].
      * by rewrite lookup_insert_eq.
      * by rewrite lookup_insert_ne.
    + destruct (decide (p = profile)) as [->|Hne].
      * by rewrite lookup_insert_eq.
      * by rewrite lookup_insert_ne.
Qed.

Lemma add_ports_lookup groups m m' profile :
  add_entries put_port groups m = Ok m' →
  m' !! profile =
  match last_value profile groups with
  | Some v => Some {| host := host (default empty_entry (m !! profile)); port := Some v |}
  | None => m !! profile
  end.
Proof.
  revert m. induction groups as [|g groups IH]; intros m; simpl.
  - by intros [= <-].
  - intros (token & Htok & ([p v] & Hpv & Hrest)%bind_Ok)%bind_Ok.
    rewrite (IH _ Hrest), last_value_cons.
    assert (entry_of g = Some (p, v)) as ->.
    { destruct g; [done|]. simpl in *. injection Htok as ->. by rewrite Hpv. }
    unfold put_port. destruct (last_value profile groups) as [v'|].
    + f_equal. f_equal. destruct (decide (p = profile)) as [->|Hne].
      * by rewrite lookup_insert_eq.
      * by rewrite lookup_insert_ne.
    + destruct (decide (p = profile)) as [->|Hne].
      * by rewrite lookup_insert_eq.
      * by rewrite lookup_insert_ne.
Qed.

(** A non-empty list of groups that was accepted names some profile. *)
Lemma add_entries_names put groups m m' :
  add_entries put groups m = Ok m' → groups ≠ [] →
  ∃ profile, is_Some (last_value profile groups).
Proof.
  destruct groups as [|g groups]; [done|]. simpl.
  intros (token & Htok & ([p v] & Hpv & _)%bind_Ok)%bind_Ok _.
  exists p. rewrite last_value_cons.
  assert (entry_of g = Some (p, v)) as ->.
  { destruct g; [done|]. simpl in *. injection Htok as ->. by rewrite Hpv. }
  rewrite decide_True by done. by destruct (last_value p groups).
Qed.

Lemma get_routing_lookup args r :
  get_routing args = Ok r →
  engine r = arg_r args ∧
  ((default [] (arg_a args) = [] ∧ default [] (arg_p args) = [] ∧
    profiles r = default_profiles) ∨
   ((default [] (arg_a args) ≠ [] ∨ default [] (arg_p args) ≠ []) ∧
    ∀ profile,
      profiles r !! profile =
      match last_value profile (default [] (arg_a args)),
            last_value profile (default [] (arg_p args)) with
      | None, None => None
      | h, p => Some {| host := h; port := p |}
      end)).
Proof.
  unfold get_routing.
  intros (ma & Hma & (mp & Hmp & [= <-])%bind_Ok)%bind_Ok.
  split; [done|]. cbn [profiles].
  assert (∀ profile, mp !! profile =
            match last_value profile (default [] (arg_a args)),
                  last_value profile (default [] (arg_p args)) with
            | None, None => None
            | h, p => Some {| host := h; port := p |}
            end) as Hlookup.
  { intros profile. rewrite (add_ports_lookup _ _ _ profile Hmp).
    rewrite (add_hosts_lookup _ _ _ profile Hma). rewrite lookup_empty.
    destruct (last_value profile (default [] (arg_a args))),
             (last_value profile (default [] (arg_p args))); done. }
  destruct (decide (default [] (arg_a args) = [])) as [Ha|Ha].
  - destruct (decide (default [] (arg_p args) = [])) as [Hp|Hp].
    + left. rewrite Ha in Hma. rewrite Hp in Hmp. simpl in *.
      injection Hma as <-. injection Hmp as <-. by rewrite decide_True.
    + right. split; [by right|].
      destruct (add_entries_names _ _ _ _ Hmp Hp) as [profile [v Hv]].
      rewrite decide_False; [done|]. intros ->.
      specialize (Hlookup profile). rewrite Hv, lookup_empty in Hlookup.
      by destruct (last_value profile (default [] (arg_a args))).
  - right. split; [by left|].
    destruct (add_entries_names _ _ _ _ Hma Ha) as [profile [v Hv]].
    rewrite decide_False; [done|]. intros ->.
    specialize (Hlookup profile). rewrite Hv, lookup_empty in Hlookup.
    by destruct (last_value profile (default [] (arg_p args))).
Qed.

(** ** More on the monad and the filters *)

Lemma rmap_Forall_Ok {A B} (f : A → result B) l :
  Forall (λ x, ∃ y, f x = Ok y) l → ∃ ys, rmap f l = Ok ys.
Proof.
  induction 1 as [|x l [y Hy] _ [ys Hys]]; simpl; [eauto|].
  rewrite Hy. simpl. rewrite Hys. simpl. eauto.
Qed.

Lemma filter_dominated_Raise pool e :
  filter_dominated pool = Raise e ↔ rmap completion_time pool = Raise e.
Proof.
  rewrite filter_dominated_unfold.
  destruct (rmap completion_time pool); simpl; split; congruence.
Qed.

Lemma filter_unique_Raise pool e :
  filter_unique pool = Raise e ↔ rmap completion_time pool = Raise e.
Proof.
  rewrite filter_unique_unfold.
  destruct (rmap completion_time pool); simpl; split; congruence.
Qed.

Lemma rmap_Raise {A B} (f : A → result B) l e :
  rmap f l = Raise e → ∃ x, x ∈ l ∧ f x = Raise e.
Proof.
  induction l as [|x l IH]; simpl; [done|].
  destruct (f x) as [y|e'|] eqn:Hfx; simpl; [|intros [= ->]|done].
  - destruct (rmap f l) as [ys|e'|]; simpl; [done| |done].
    intros [= ->]. destruct IH as (x' & Hx' & Hfx'); [done|].
    exists x'. split; [by right|done].
  - exists x. split; [by left|done].
Qed.

Lemma completion_time_Raise s e :
  completion_time s = Raise e → e = IndexError ∨ e = ValueError.
Proof.
  unfold completion_time.
  destruct (rmap last_arrival (routes s)) as [arr|e'|] eqn:Harr; simpl; [| |done].
  - destruct arr; simpl; [|done]. intros [= <-]. by right.
  - intros [= ->]. apply rmap_Raise in Harr as (r & _ & Hr).
    unfold last_arrival in Hr. destruct (last (steps r)); [done|].
    injection Hr as <-. by left.
Qed.

(** * Properties beyond the claims *)

(** ** The two filters *)

(** X1: the uniqueness filter keeps exactly the first occurrence of every
    point, in the order of the pool: the result is the list of the members
    whose (completion time, cost) pair no earlier member has.  So no point of
    the pool is lost, and the first member of the pool stays first. *)
Theorem filter_unique_keeps_first_occurrences (pool res : list solution) :
  filter_unique pool = Ok res →
  res = first_occurrences [] pool ∧
  (∀ x, x ∈ pool → ∃ y, y ∈ res ∧ point_of y = point_of x) ∧
  (∀ h t, pool = h :: t → ∃ t', res = h :: t').
Proof.
  intros Hres. pose proof (filter_unique_first_occurrences _ _ Hres) as ->.
  split_and!; [done| |].
  - intros x Hx. apply first_occurrences_covers; [done|apply not_elem_of_nil].
  - intros h t ->. cbn [first_occurrences].
    rewrite bool_decide_eq_false_2 by apply not_elem_of_nil. eauto.
Qed.

Lemma filter_unique_keeps_first_occurrences_witness :
  filter_unique sample_undominated = Ok sample_frontier ∧
  sample_frontier = first_occurrences [] sample_undominated ∧
  (∀ x, x ∈ sample_undominated → ∃ y, y ∈ sample_frontier ∧ point_of y = point_of x) ∧
  (∀ h t, sample_undominated = h :: t → ∃ t', sample_frontier = h :: t').
Proof.
  assert (filter_unique sample_undominated = Ok sample_frontier) as H
    by (vm_compute; reflexivity).
  split; [exact H|].
  exact (filter_unique_keeps_first_occurrences sample_undominated sample_frontier H).
Defined.

(** X2: the uniqueness filter is idempotent: on its own result it succeeds
    and removes nothing. *)
Theorem filter_unique_idempotent (pool res : list solution) :
  filter_unique pool = Ok res → filter_unique res = Ok res.
Proof. apply filter_unique_idemp_aux. Qed.

Lemma filter_unique_idempotent_witness :
  filter_unique sample_undominated = Ok sample_frontier ∧
  filter_unique sample_frontier = Ok sample_frontier.
Proof.
  assert (filter_unique sample_undominated = Ok sample_frontier) as H
    by (vm_compute; reflexivity).
  split; [exact H|].
  exact (filter_unique_idempotent sample_undominated sample_frontier H).
Defined.

(** X3: the dominance filter is idempotent: a member that no member of the
    pool beats on both axes is not beaten by a survivor either, so a second
    call succeeds and removes nothing. *)
Theorem filter_dominated_idempotent (pool fd : list solution) :
  filter_dominated pool = Ok fd → filter_dominated fd = Ok fd.
Proof. apply filter_dominated_idemp_aux. Qed.

Lemma filter_dominated_idempotent_witness :
  filter_dominated sample_pool = Ok sample_undominated ∧
  filter_dominated sample_undominated = Ok sample_undominated.
Proof.
  assert (filter_dominated sample_pool = Ok sample_undominated) as H
    by (vm_compute; reflexivity).
  split; [exact H|].
  exact (filter_dominated_idempotent sample_pool sample_undominated H).
Defined.

(** X4: the dominance filter keeps every member with the least completion
    time and every member with the least cost, so it never empties a pool
    that has a member. *)
Theorem filter_dominated_keeps_extremes (pool fd : list solution) :
  filter_dominated pool = Ok fd →
  (∀ x cx, x ∈ pool → completion_time x = Ok cx →
     (∀ y cy, y ∈ pool → completion_time y = Ok cy → cx ≤ cy) → x ∈ fd) ∧
  (∀ x, x ∈ pool →
     (∀ y, y ∈ pool → cost (summary x) ≤ cost (summary y)) → x ∈ fd) ∧
  (pool ≠ [] → fd ≠ []).
Proof.
  intros Hfd. split_and!.
  - intros x cx. by apply filter_dominated_keeps_earliest.
  - intros x. by apply filter_dominated_keeps_cheapest.
  - by apply filter_dominated_nonempty.
Qed.

Lemma filter_dominated_keeps_extremes_witness :
  filter_dominated sample_pool = Ok sample_undominated ∧
  point 1 9 0 ∈ sample_undominated ∧
  point 4 7 0 ∈ sample_undominated ∧
  sample_undominated ≠ [].
Proof.
  assert (filter_dominated sample_pool = Ok sample_undominated) as H
    by (vm_compute; reflexivity).
  destruct (filter_dominated_keeps_extremes sample_pool sample_undominated H)
    as (Hearly & Hcheap & Hne).
  split; [exact H|]. split_and!.
  - apply (Hearly (point 1 9 0) 1); [apply list_elem_of_here|reflexivity|].
    intros y cy Hy Hcy. unfold sample_pool in Hy.
    repeat (apply elem_of_cons in Hy as [->|Hy];
            [vm_compute in Hcy; injection Hcy as <-; lia|]).
    by apply elem_of_nil in Hy.
  - apply (Hcheap (point 4 7 0));
      [do 5 apply list_elem_of_further; apply list_elem_of_here|].
    intros y Hy. unfold sample_pool in Hy.
    repeat (apply elem_of_cons in Hy as [->|Hy]; [simpl; lia|]).
    by apply elem_of_nil in Hy.
  - by apply Hne.
Defined.

(** X5: both filters start by computing the completion time of every
    member, so they fail on the same pools and with the same exception: each
    succeeds exactly when every member has a route and every route a step,
    and neither can fail in any other way. *)
Theorem filters_fail_together (pool : list solution) :
  ((∃ fd, filter_dominated pool = Ok fd) ↔
   Forall (λ s, ∃ c, completion_time s = Ok c) pool) ∧
  ((∃ res, filter_unique pool = Ok res) ↔
   Forall (λ s, ∃ c, completion_time s = Ok c) pool) ∧
  (∀ e, filter_dominated pool = Raise e ↔ filter_unique pool = Raise e) ∧
  (∀ e, filter_dominated pool = Raise e → e = IndexError ∨ e = ValueError) ∧
  filter_dominated pool ≠ Timeout ∧ filter_unique pool ≠ Timeout.
Proof.
  assert ((∃ cts, rmap completion_time pool = Ok cts) ↔
          Forall (λ s, ∃ c, completion_time s = Ok c) pool) as Hcts.
  { split; [intros [cts H]; by eapply rmap_Ok_Forall|apply rmap_Forall_Ok]. }
  split_and!.
  - by rewrite filter_dominated_Ok_iff.
  - by rewrite filter_unique_Ok_iff.
  - intros e. by rewrite filter_dominated_Raise, filter_unique_Raise.
  - intros e He. apply filter_dominated_Raise in He.
    apply rmap_Raise in He as (x & _ & Hx). by eapply completion_time_Raise.
  - rewrite filter_dominated_unfold.
    pose proof (rmap_not_Timeout completion_time pool completion_time_not_Timeout).
    destruct (rmap completion_time pool); done.
  - rewrite filter_unique_unfold.
    pose proof (rmap_not_Timeout completion_time pool completion_time_not_Timeout).
    destruct (rmap completion_time pool); done.
Qed.

(** X6: the two filters commute on every pool the dominance filter accepts:
    removing the beaten members and then the duplicates gives the list that
    removing the duplicates and then the beaten members gives. *)
Theorem filters_commute (pool fd res : list solution) :
  filter_dominated pool = Ok fd → filter_unique fd = Ok res →
  ∃ u, filter_unique pool = Ok u ∧ filter_dominated u = Ok res.
Proof. apply filters_commute_aux. Qed.

Lemma filters_commute_witness :
  filter_dominated sample_pool = Ok sample_undominated ∧
  filter_unique sample_undominated = Ok sample_frontier ∧
  ∃ u, filter_unique sample_pool = Ok u ∧ filter_dominated u = Ok sample_frontier.
Proof.
  assert (filter_dominated sample_pool = Ok sample_undominated) as H1
    by (vm_compute; reflexivity).
  assert (filter_unique sample_undominated = Ok sample_frontier) as H2
    by (vm_compute; reflexivity).
  split; [exact H1|]. split; [exact H2|].
  exact (filters_commute sample_pool sample_undominated sample_frontier H1 H2).
Defined.

(** X7: once the sort by completion time has succeeded, neither filter can
    fail on the sorted pool, the first member of the sorted pool is the
    first member of the reduced pool, and a pool with a member is not
    reduced to nothing. *)
Theorem reduction_cannot_fail_after_sort (pool sorted : list solution) :
  sort_by_completion pool = Ok sorted →
  ∃ fd res, filter_dominated sorted = Ok fd ∧ filter_unique fd = Ok res ∧
            (pool ≠ [] → res ≠ []) ∧
            (∀ h t, sorted = h :: t → ∃ t', res = h :: t').
Proof.
  intros Hsort. destruct (reduction_after_sort _ _ Hsort) as (fd & res & Hfd & Hres & Hne).
  exists fd, res. split_and!; [done|done|done|].
  intros h t Hht.
  destruct (sort_by_completion_sorted _ _ Hsort) as (cts & Hcts & Hs).
  by eapply reduced_head.
Qed.

Lemma reduction_cannot_fail_after_sort_witness :
  sort_by_completion sample_pool = Ok sample_sorted ∧
  ∃ fd res, filter_dominated sample_sorted = Ok fd ∧ filter_unique fd = Ok res ∧
            (sample_pool ≠ [] → res ≠ []) ∧
            (∀ h t, sample_sorted = h :: t → ∃ t', res = h :: t').
Proof.
  assert (sort_by_completion sample_pool = Ok sample_sorted) as H
    by (vm_compute; reflexivity).
  split; [exact H|].
  exact (reduction_cannot_fail_after_sort sample_pool sample_sorted H).
Defined.

(** ** The dichotomic search *)

(** X8: the dichotomic search returns the first solution, tagged [Initial],
    followed by recorded probes only: each is the solver's answer on the
    input instance clamped at some candidate, tagged [Dichotomy], and
    leaves no job unassigned. *)
Theorem dichotomy_returns_initial_then_probes
    (solve : instance → solution) (data : instance)
    (first_solution : solution) (solutions : list solution) :
  dichotomy solve data first_solution = Ok solutions →
  ∃ rest,
    solutions = set_origin (Some Initial) first_solution :: rest ∧
    Forall (λ s, recorded_probe solve data s ∧ origin s = Some Dichotomy ∧
                 unassigned (summary s) = Some 0) rest.
Proof.
  intros (rest & -> & Hrest)%dichotomy_records. exists rest. split; [done|].
  eapply Forall_impl; [exact Hrest|]. intros s Hs. split_and!; [done| |].
  - by eapply recorded_probe_origin.
  - by destruct Hs as (? & ? & ? & _ & _ & ?).
Qed.

Lemma dichotomy_returns_initial_then_probes_witness :
  dichotomy (stub_solve 40 30) sample_instance (stub_solve 40 30 sample_instance)
    = Ok sample_dichotomy ∧
  length sample_dichotomy = 2%nat ∧
  ∃ rest,
    sample_dichotomy
      = set_origin (Some Initial) (stub_solve 40 30 sample_instance) :: rest ∧
    Forall (λ s, recorded_probe (stub_solve 40 30) sample_instance s ∧
                 origin s = Some Dichotomy ∧
                 unassigned (summary s) = Some 0) rest.
Proof.
  assert (dichotomy (stub_solve 40 30) sample_instance (stub_solve 40 30 sample_instance)
          = Ok sample_dichotomy) as H by (vm_compute; reflexivity).
  split; [exact H|]. split; [reflexivity|].
  exact (dichotomy_returns_initial_then_probes _ _ _ _ H).
Defined.

(** X9: the loop of the dichotomic search halves the distance between its
    bounds: when they are at most [2 ^ n] apart it ends within [n + 1]
    passes, more fuel does not change its result, and it appends at most
    [n] solutions to the ones it started with. *)
Theorem dichotomy_loop_logarithmic
    (solve : instance → solution) (data : instance) (n : nat)
    (earliest latest : Z) (solutions : list solution) :
  Z.abs (latest - earliest) ≤ 2 ^ Z.of_nat n →
  dichotomy_loop solve (S n) data earliest latest solutions ≠ Timeout ∧
  (∀ fuel, (S n ≤ fuel)%nat →
     dichotomy_loop solve fuel data earliest latest solutions
     = dichotomy_loop solve (S n) data earliest latest solutions) ∧
  (∀ out, dichotomy_loop solve (S n) data earliest latest solutions = Ok out →
     ∃ rest, out = solutions ++ rest ∧ (length rest ≤ n)%nat).
Proof.
  intros Hd. pose proof (dichotomy_loop_log solve data n _ _ solutions Hd) as Hnt.
  split_and!; [done| |].
  - intros fuel Hfuel. by apply dichotomy_loop_fuel_mono.
  - intros out (rest & -> & _ & Hlen)%dichotomy_loop_appends.
    exists rest. split; [done|lia].
Qed.

Lemma dichotomy_loop_logarithmic_witness :
  Z.abs (40 - 0) ≤ 2 ^ Z.of_nat 6 ∧
  dichotomy_loop (stub_solve 40 30) 7 sample_instance 0 40 [] ≠ Timeout ∧
  (∀ fuel, (7 ≤ fuel)%nat →
     dichotomy_loop (stub_solve 40 30) fuel sample_instance 0 40 []
     = dichotomy_loop (stub_solve 40 30) 7 sample_instance 0 40 []) ∧
  (∀ out, dichotomy_loop (stub_solve 40 30) 7 sample_instance 0 40 [] = Ok out →
     ∃ rest, out = [] ++ rest ∧ (length rest ≤ 6)%nat).
Proof.
  assert (Z.abs (40 - 0) ≤ 2 ^ Z.of_nat 6) as H by (vm_compute; discriminate).
  split; [exact H|].
  exact (dichotomy_loop_logarithmic (stub_solve 40 30) sample_instance 6 0 40 [] H).
Defined.

(** X10: when the first solution uses every vehicle and its routes end at
    most one time unit apart, the search makes no probe at all, whatever
    the solver would answer, and returns the first solution alone. *)
Theorem dichotomy_no_probe_when_tight
    (solve : instance → solution) (data : instance) (first_solution : solution)
    (end_dates : list Z) (earliest latest m : Z) :
  rmap last_arrival (routes first_solution) = Ok end_dates →
  py_min end_dates = Ok earliest → py_max end_dates = Ok latest →
  earliest_TW latest (vehicles data) = Ok m →
  (length (vehicles data) ≤ length (routes first_solution))%nat →
  latest - earliest ≤ 1 →
  dichotomy solve data first_solution = Ok [set_origin (Some Initial) first_solution].
Proof. apply dichotomy_no_probe. Qed.

Lemma dichotomy_no_probe_when_tight_witness :
  dichotomy (stub_solve 40 30) single_vehicle_instance (point 40 160 0)
  = Ok [set_origin (Some Initial) (point 40 160 0)].
Proof.
  apply (dichotomy_no_probe_when_tight (stub_solve 40 30) single_vehicle_instance
           (point 40 160 0) [40] 40 40 0);
    [reflexivity|reflexivity|reflexivity|reflexivity|simpl; lia|lia].
Defined.

(** ** The clamping loops *)

Lemma set_time_window_twice tw tw' v :
  set_time_window tw' (set_time_window tw v) = set_time_window tw' v.
Proof. done. Qed.

Lemma shrink_backward_after h1 h2 v v1 :
  h2 ≤ h1 → shrink_backward h1 v = Ok (Some v1) →
  shrink_backward h2 v1 = shrink_backward h2 v.
Proof.
  intros Hle (tw0 & tw1 & rest & Htw & Hle0 & ->)%shrink_backward_Some.
  unfold shrink_backward, item0, set_item1. cbn [time_window set_time_window].
  rewrite Htw. simpl. case_bool_decide; done.
Qed.

Lemma shrink_backward_dropped h1 h2 v :
  h2 ≤ h1 → shrink_backward h1 v = Ok None → shrink_backward h2 v = Ok None.
Proof.
  intros Hle (tw0 & rest & Htw & Hlt)%shrink_backward_None.
  unfold shrink_backward, item0. rewrite Htw. simpl.
  by rewrite bool_decide_eq_true_2 by lia.
Qed.

(** X11: on vehicles that all carry a window of at least two bounds the
    clamping loop of the backward sweep cannot fail; every vehicle it keeps
    has its window end set to the horizon and its window start at or before
    the horizon, and no vehicle is added. *)
Theorem shrink_backward_clamps_every_vehicle (h : Z) (vs : list vehicle) :
  Forall has_window vs →
  ∃ vs', shrink_vehicles (shrink_backward h) vs = Ok vs' ∧
         Forall (clamped_to h) vs' ∧ (length vs' ≤ length vs)%nat.
Proof.
  intros Hall. destruct (shrink_backward_total h vs Hall) as (vs' & Hvs' & Hcl).
  exists vs'. split_and!; [done|done|].
  rewrite shrink_vehicles_list in Hvs'. by eapply shrink_list_length.
Qed.

Lemma shrink_backward_clamps_every_vehicle_witness :
  Forall has_window (vehicles sample_instance) ∧
  ∃ vs', shrink_vehicles (shrink_backward 39) (vehicles sample_instance) = Ok vs' ∧
         Forall (clamped_to 39) vs' ∧
         (length vs' ≤ length (vehicles sample_instance))%nat.
Proof.
  assert (Forall has_window (vehicles sample_instance)) as H.
  { repeat constructor; by exists 0, 100, []. }
  split; [exact H|].
  exact (shrink_backward_clamps_every_vehicle 39 (vehicles sample_instance) H).
Defined.

(** X12: the clamps of the backward sweep accumulate on one copy of the
    instance, and this changes nothing: clamping at [h1] and then at a
    horizon [h2] that is not later gives what clamping the untouched
    vehicles at [h2] gives, failures included.  In particular clamping twice
    at the same horizon is clamping once. *)
Theorem shrink_backward_composes (h1 h2 : Z) (vs vs1 : list vehicle) :
  h2 ≤ h1 →
  shrink_vehicles (shrink_backward h1) vs = Ok vs1 →
  shrink_vehicles (shrink_backward h2) vs1 = shrink_vehicles (shrink_backward h2) vs ∧
  shrink_vehicles (shrink_backward h1) vs1 = Ok vs1.
Proof.
  intros Hle Hvs1. rewrite !shrink_vehicles_list in *. split.
  - apply (shrink_list_compose (shrink_backward h1)); [| |done].
    + intros v _. by apply shrink_backward_dropped.
    + intros v v1 _. by apply shrink_backward_after.
  - etrans; [|exact Hvs1].
    apply (shrink_list_compose (shrink_backward h1)); [| |done].
    + intros v _. by apply shrink_backward_dropped.
    + intros v v1 _. by apply shrink_backward_after.
Qed.

Lemma shrink_backward_composes_witness :
  shrink_vehicles (shrink_backward 39) [windowed 0 100; windowed 35 100]
    = Ok [windowed 0 39; windowed 35 39] ∧
  shrink_vehicles (shrink_backward 30) [windowed 0 39; windowed 35 39]
    = shrink_vehicles (shrink_backward 30) [windowed 0 100; windowed 35 100] ∧
  shrink_vehicles (shrink_backward 39) [windowed 0 39; windowed 35 39]
    = Ok [windowed 0 39; windowed 35 39].
Proof.
  assert (shrink_vehicles (shrink_backward 39) [windowed 0 100; windowed 35 100]
          = Ok [windowed 0 39; windowed 35 39]) as H by (vm_compute; reflexivity).
  split; [exact H|].
  apply (shrink_backward_composes 39 30 [windowed 0 100; windowed 35 100]); [lia|exact H].
Defined.

(** X13: on vehicles whose window is a list of exactly two bounds the
    clamping loop of the dichotomic search and that of the backward sweep
    are the same function of the horizon: same vehicles dropped, same
    windows written. *)
Theorem clamping_loops_agree (c latest : Z) (vs : list vehicle) :
  Forall (λ v, ∃ a b, time_window v = Some [a; b]) vs →
  shrink_vehicles (shrink_dichotomy c latest) vs
  = shrink_vehicles (shrink_backward c) vs.
Proof.
  intros Hall. rewrite !shrink_vehicles_list. apply shrink_list_ext.
  eapply Forall_impl; [exact Hall|]. intros v (a & b & Htw).
  by eapply shrink_dichotomy_pair.
Qed.

Lemma clamping_loops_agree_witness :
  shrink_vehicles (shrink_dichotomy 20 40) (vehicles sample_instance)
  = shrink_vehicles (shrink_backward 20) (vehicles sample_instance).
Proof.
  apply (clamping_loops_agree 20 40 (vehicles sample_instance)).
  repeat constructor; by exists 0, 100.
Defined.

(** ** The backward sweep *)

(** X14: the first pass of the backward sweep solves the instance as it was
    given, before any clamp: when the first solution is fully routed, the
    list the sweep returns starts with the solver's answer on the unmodified
    instance, tagged [BackwardSearch]; otherwise the sweep makes no pass and
    returns the empty list. *)
Theorem backward_search_starts_unclamped
    (solve : instance → solution) (fuel : nat) (data : instance)
    (first_solution : solution) (out : list solution) :
  backward_search solve fuel data first_solution = Ok out →
  (fully_routed first_solution →
     ∃ rest, out = set_origin (Some BackwardSearch) (solve data) :: rest) ∧
  (¬ fully_routed first_solution → out = []).
Proof.
  unfold backward_search, fully_routed. intros (latest & _ & Hloop)%bind_Ok. split.
  - intros Hz. rewrite Hz in Hloop. by apply backward_loop_first in Hloop.
  - intros Hnz. rewrite backward_loop_exit in Hloop by congruence.
    by injection Hloop as <-.
Qed.

Lemma backward_search_starts_unclamped_witness :
  backward_search (stub_solve 40 38) 10 sample_instance (stub_solve 40 38 sample_instance)
    = Ok sample_sweep ∧
  (fully_routed (stub_solve 40 38 sample_instance) →
     ∃ rest, sample_sweep
             = set_origin (Some BackwardSearch) (stub_solve 40 38 sample_instance) :: rest) ∧
  (¬ fully_routed (stub_solve 40 38 sample_instance) → sample_sweep = []).
Proof.
  assert (backward_search (stub_solve 40 38) 10 sample_instance
            (stub_solve 40 38 sample_instance) = Ok sample_sweep) as H
    by (vm_compute; reflexivity).
  split; [exact H|].
  exact (backward_search_starts_unclamped _ _ _ _ _ H).
Defined.

(** X15: the backward sweep has no bound of its own.  With a solver that
    routes every job on every instance, and vehicles that all carry a
    window, the loop never leaves: whatever number of passes it is given,
    it has not returned. *)
Theorem backward_search_never_returns_when_always_feasible
    (solve : instance → solution) (data : instance) (first_solution : solution) (ct : Z) :
  (∀ inst, unassigned (summary (solve inst)) = Some 0) →
  (∀ inst, ∃ c, completion_time (solve inst) = Ok c) →
  Forall has_window (vehicles data) →
  completion_time first_solution = Ok ct →
  fully_routed first_solution →
  ∀ fuel, backward_search solve fuel data first_solution = Timeout.
Proof.
  intros Hfeasible Hct Hwin Hfirst Hrouted fuel.
  unfold backward_search, fully_routed in *. rewrite Hfirst, Hrouted.
  cbn [mbind result_bind rbind]. by apply backward_loop_never_returns.
Qed.

Lemma backward_search_never_returns_when_always_feasible_witness :
  backward_search eager_solve 1000 sample_instance (eager_solve sample_instance)
  = Timeout.
Proof.
  refine (backward_search_never_returns_when_always_feasible
            eager_solve sample_instance (eager_solve sample_instance) 5
            _ _ _ _ _ 1000%nat).
  - intros inst. reflexivity.
  - intros inst. exists 5. reflexivity.
  - repeat constructor; by exists 0, 100, [].
  - reflexivity.
  - reflexivity.
Defined.

Lemma shrink_vehicles_backward_compose h1 h2 vs vs1 :
  h2 ≤ h1 →
  shrink_vehicles (shrink_backward h1) vs = Ok vs1 →
  shrink_vehicles (shrink_backward h2) vs1 = shrink_vehicles (shrink_backward h2) vs.
Proof.
  intros Hle Hvs1. rewrite !shrink_vehicles_list in *.
  apply (shrink_list_compose (shrink_backward h1)); [| |done].
  - intros v _. by apply shrink_backward_dropped.
  - intros v v1 _. by apply shrink_backward_after.
Qed.

Lemma backward_loop_clamped solve data fuel current latest unassigned_seen solutions out vs :
  shrink_vehicles (shrink_backward latest) (vehicles data) = Ok vs →
  current = set_vehicles vs data →
  backward_loop solve fuel current latest unassigned_seen solutions = Ok out →
  ∃ rest, out = solutions ++ rest ∧
    ∀ k s, rest !! k = Some s →
      ∃ vs', shrink_vehicles (shrink_backward (latest - Z.of_nat k)) (vehicles data) = Ok vs' ∧
             s = set_origin (Some BackwardSearch) (solve (set_vehicles vs' data)).
Proof.
  revert current latest unassigned_seen solutions vs out.
  induction fuel as [|fuel IH];
    intros current latest unassigned_seen solutions vs out Hvs Hcur;
    cbn [backward_loop]; case_bool_decide; try done;
    try (intros [= <-]; exists []; rewrite app_nil_r; split; [done|]; by intros k s).
  intros (ct & _ & (vs1 & Hvs1 & Hloop)%bind_Ok)%bind_Ok.
  assert (shrink_vehicles (shrink_backward (latest - 1)) (vehicles data) = Ok vs1) as Hdata.
  { rewrite <- Hvs1. rewrite Hcur. cbn [vehicles set_vehicles]. symmetry.
    apply (shrink_vehicles_backward_compose latest); [lia|done]. }
  destruct (IH (set_vehicles vs1 current) _ _ _ vs1 _ Hdata ltac:(by rewrite Hcur) Hloop)
    as (rest & -> & Hrest).
  exists (set_origin (Some BackwardSearch) (solve current) :: rest).
  rewrite <- app_assoc. split; [done|].
  intros [|k] s; simpl.
  - intros [= <-]. exists vs. rewrite Z.sub_0_r. by rewrite Hcur.
  - intros Hk. destruct (Hrest k s Hk) as (vs' & Hvs' & ->). exists vs'.
    split; [|done]. rewrite <- Hvs'. f_equal. f_equal. lia.
Qed.

(** X16: although the backward sweep clamps one copy of the instance again
    and again, each of its passes after the first solves the instance as it
    was given, clamped once: the member of index [k + 1] of the list the
    sweep returns is the solver's answer on the input instance clamped at
    the completion time of the first solution minus [k + 1]. *)
Theorem backward_search_probes_clamped_once
    (solve : instance → solution) (fuel : nat) (data : instance)
    (first_solution : solution) (latest : Z) (out : list solution) :
  completion_time first_solution = Ok latest →
  backward_search solve fuel data first_solution = Ok out →
  ∀ k s, out !! S k = Some s →
    ∃ vs, shrink_vehicles (shrink_backward (latest - Z.of_nat (S k))) (vehicles data) = Ok vs ∧
          s = set_origin (Some BackwardSearch) (solve (set_vehicles vs data)).
Proof.
  intros Hlatest. unfold backward_search. rewrite Hlatest. cbn [mbind result_bind rbind].
  destruct fuel as [|fuel]; cbn [backward_loop]; case_bool_decide; try done;
    try (intros [= <-]; by intros k s).
  intros (ct & _ & (vs1 & Hvs1 & Hloop)%bind_Ok)%bind_Ok k s.
  destruct (backward_loop_clamped _ data _ _ _ _ _ _ vs1 Hvs1 eq_refl Hloop)
    as (rest & -> & Hrest).
  simpl. intros Hk. destruct (Hrest k s Hk) as (vs' & Hvs' & ->). exists vs'.
  split; [|done]. rewrite <- Hvs'. f_equal. f_equal. lia.
Qed.

Lemma backward_search_probes_clamped_once_witness :
  backward_search (stub_solve 40 38) 10 sample_instance (stub_solve 40 38 sample_instance)
    = Ok sample_sweep ∧
  ∀ k s, sample_sweep !! S k = Some s →
    ∃ vs, shrink_vehicles (shrink_backward (40 - Z.of_nat (S k))) (vehicles sample_instance)
          = Ok vs ∧
          s = set_origin (Some BackwardSearch)
                (stub_solve 40 38 (set_vehicles vs sample_instance)).
Proof.
  assert (backward_search (stub_solve 40 38) 10 sample_instance
            (stub_solve 40 38 sample_instance) = Ok sample_sweep) as H
    by (vm_compute; reflexivity).
  split; [exact H|].
  exact (backward_search_probes_clamped_once (stub_solve 40 38) 10 sample_instance
           (stub_solve 40 38 sample_instance) 40 sample_sweep eq_refl H).
Defined.

(** ** The orchestrator *)

Lemma sorted_head_least h t cts :
  rmap completion_time (h :: t) = Ok cts → StronglySorted Z.le cts →
  ∃ ch, completion_time h = Ok ch ∧
        ∀ y cy, y ∈ h :: t → completion_time y = Ok cy → ch ≤ cy.
Proof.
  intros Hcts Hs. simpl in Hcts.
  apply bind_Ok in Hcts as (ch & Hch & (ct' & Hct' & [= <-])%bind_Ok).
  exists ch. split; [done|]. apply StronglySorted_inv in Hs as [_ Hall].
  intros y cy [->|Hy]%elem_of_cons Hcy.
  - rewrite Hch in Hcy. injection Hcy as <-. lia.
  - apply list_elem_of_lookup_1 in Hy as [i Hi].
    destruct (rmap_lookup _ _ _ _ _ Hct' Hi) as (c & Hc & Hcy').
    rewrite Hcy in Hcy'. injection Hcy' as <-.
    rewrite Forall_forall in Hall. apply Hall. by eapply list_elem_of_lookup_2.
Qed.

Lemma solve_asap_head solve fuel p r :
  solve_asap solve fuel p = Ok r →
  ∃ h tl c c0,
    completion_time h = Ok c ∧
    completion_time (solve (p_instance p)) = Ok c0 ∧ c ≤ c0 ∧
    Forall (λ y, ∃ cy, completion_time y = Ok cy ∧ c ≤ cy) tl ∧
    ((return_pareto_front p = true ∧ r = Front (strip_origin <$> h :: tl)) ∨
     (return_pareto_front p = false ∧
      r = Best (strip_computing_times (strip_origin h)))).
Proof.
  intros Hrun.
  destruct (solve_asap_stages _ _ _ _ Hrun)
    as (_ & _ & rest & more & sorted & fd & res & _ & _ & _ & Hsort & Hfd & Hres & Hr).
  destruct (sort_by_completion_sorted _ _ Hsort) as (cts & Hcts & Hs).
  destruct (sort_by_completion_head _ _ Hsort) as (h & t & ->); [done|].
  destruct (reduced_head _ _ _ _ _ _ Hcts Hs Hfd Hres eq_refl) as [tl ->].
  destruct (sorted_head_least _ _ _ Hcts Hs) as (c & Hc & Hmin).
  pose proof (rmap_Ok_Forall _ _ _ Hcts) as Hall. rewrite Forall_forall in Hall.
  assert (set_origin (Some Initial) (solve (p_instance p)) ∈ h :: t) as Hinit.
  { rewrite (sort_by_completion_perm _ _ Hsort). by left. }
  destruct (Hall _ Hinit) as [c0 Hc0].
  exists h, tl, c, c0. split_and!; [done|exact Hc0|by eapply Hmin| |].
  - apply Forall_forall. intros y Hy.
    assert (y ∈ h :: t) as Hy'.
    { eapply elem_of_sublist; [by apply filter_dominated_sublist|].
      eapply elem_of_sublist; [by apply filter_unique_sublist|]. by right. }
    destruct (Hall _ Hy') as [cy Hcy]. exists cy. split; [done|]. by eapply Hmin.
  - destruct Hr as [[? ->]|[? (best & tl' & [= <- <-] & ->)]]; [by left|by right].
Qed.

(** X17: what [solve_asap] returns starts with a solution of least
    completion time: the single best solution, or the first member of the
    frontier, ends no later than the initial solve and no later than any
    other member of the frontier; the frontier is never empty. *)
Theorem returned_head_is_earliest
    (solve : instance → solution) (fuel : nat) (p : problem) (r : response) :
  solve_asap solve fuel p = Ok r →
  ∃ c c0,
    completion_time (solve (p_instance p)) = Ok c0 ∧ c ≤ c0 ∧
    match r with
    | Best best => return_pareto_front p = false ∧ completion_time best = Ok c
    | Front front =>
        return_pareto_front p = true ∧
        ∃ h tl, front = h :: tl ∧ completion_time h = Ok c ∧
                Forall (λ y, ∃ cy, completion_time y = Ok cy ∧ c ≤ cy) tl
    end.
Proof.
  intros (h & tl & c & c0 & Hc & Hc0 & Hle & Htl & Hr)%solve_asap_head.
  exists c, c0. split_and!; [done|done|].
  destruct Hr as [[Hmode ->]|[Hmode ->]]; (split; [done|]); [|done].
  exists (strip_origin h), (strip_origin <$> tl). split_and!; [done|done|].
  apply Forall_fmap. eapply Forall_impl; [exact Htl|]. by intros y.
Qed.

Lemma returned_head_is_earliest_witness :
  solve_asap (stub_solve 40 30) 20 (sample_problem false false) = Ok (Best sample_best) ∧
  ∃ c c0,
    completion_time (stub_solve 40 30 sample_instance) = Ok c0 ∧ c ≤ c0 ∧
    return_pareto_front (sample_problem false false) = false ∧
    completion_time sample_best = Ok c.
Proof.
  assert (solve_asap (stub_solve 40 30) 20 (sample_problem false false)
          = Ok (Best sample_best)) as H by (vm_compute; reflexivity).
  split; [exact H|].
  exact (returned_head_is_earliest (stub_solve 40 30) 20 (sample_problem false false)
           (Best sample_best) H).
Defined.

(** X18: without the backward sweep every solution that [solve_asap]
    returns leaves no job unassigned: the pool holds the first solution,
    checked to be fully routed, and recorded probes of the dichotomic
    search only. *)
Theorem without_sweep_all_fully_routed
    (solve : instance → solution) (fuel : nat) (p : problem) (r : response) :
  pareto_front_more_solution p = false →
  solve_asap solve fuel p = Ok r →
  match r with
  | Front front => Forall fully_routed front
  | Best best => fully_routed best
  end.
Proof.
  intros Hmode Hrun.
  destruct (solve_asap_stages _ _ _ _ Hrun)
    as (_ & Hrouted & rest & more & sorted & fd & res & _ & Hrest & Hmore & Hsort &
        Hfd & Hres & Hr).
  rewrite Hmode in Hmore. subst more. rewrite app_nil_r in Hsort.
  assert (Forall fully_routed res) as Hall.
  { apply Forall_forall. intros x Hx.
    assert (x ∈ set_origin (Some Initial) (solve (p_instance p)) :: rest) as Hin.
    { rewrite <- (sort_by_completion_perm _ _ Hsort).
      eapply elem_of_sublist; [by apply filter_dominated_sublist|].
      eapply elem_of_sublist; [by apply filter_unique_sublist|done]. }
    apply elem_of_cons in Hin as [->|Hin]; [done|].
    rewrite Forall_forall in Hrest. eapply recorded_probe_routed. by apply Hrest. }
  destruct Hr as [[_ ->]|[_ (best & tl & -> & ->)]].
  - apply Forall_fmap. eapply Forall_impl; [exact Hall|]. by intros s.
  - by apply Forall_cons in Hall as [Hb _].
Qed.

Lemma without_sweep_all_fully_routed_witness :
  solve_asap (stub_solve 40 30) 20 (sample_problem false false) = Ok (Best sample_best) ∧
  fully_routed sample_best.
Proof.
  assert (solve_asap (stub_solve 40 30) 20 (sample_problem false false)
          = Ok (Best sample_best)) as H by (vm_compute; reflexivity).
  split; [exact H|].
  exact (without_sweep_all_fully_routed (stub_solve 40 30) 20 (sample_problem false false)
           (Best sample_best) eq_refl H).
Defined.




(** X20: a first solve that reports success and no unassigned job but
    returns no route at all, as for an instance with nothing to route,
    makes [solve_asap] fail with the [ValueError] of [max()] on an empty
    sequence, not with one of its two declared errors. *)
Theorem first_solve_without_routes_raises
    (solve : instance → solution) (fuel : nat) (p : problem) :
  code (solve (p_instance p)) = Some 0 →
  fully_routed (solve (p_instance p)) →
  routes (solve (p_instance p)) = [] →
  solve_asap solve fuel p = Raise ValueError.
Proof.
  intros Hcode Hrouted Hroutes. unfold solve_asap, fully_routed in *.
  rewrite Hcode. rewrite bool_decide_eq_false_2 by (simpl; lia).
  rewrite bool_decide_eq_false_2 by lia.
  unfold dichotomy, completion_time. cbn [routes set_origin]. rewrite Hroutes. done.
Qed.

Lemma first_solve_without_routes_raises_witness :
  solve_asap idle_solve 20 (sample_problem true true) = Raise ValueError.
Proof.
  apply (first_solve_without_routes_raises idle_solve 20 (sample_problem true true));
    reflexivity.
Defined.

(** ** The plot *)















(** ** The command-line wrapper *)

Lemma glued_first_tokens_flag flag groups out :
  glued_first_tokens flag groups = Ok out →
  Forall (λ a, ∃ rest, a = flag +:+ rest) out.
Proof.
  destruct groups as [gs|]; simpl; [|intros [= <-]; constructor].
  intros H%rmap_Forall2. induction H as [|g a gs out Ha _ IH]; constructor; [|done].
  apply bind_Ok in Ha as (t & _ & [= <-]). eauto.
Qed.

(** X23: the command line rebuilt for the solver ends with the flags the
    wrapper did not recognise, untouched and in their order; what comes
    before them does not depend on them and consists of [-a], [-g], [-l],
    [-p], [-r], [-t] and [-x] arguments only, so none of the wrapper's own
    options ([-i], [-o], the frontier and plot options) is forwarded. *)
Theorem get_cl_args_forwards_unknown
    (args : cli_args) (unknown_cli : list string) (out : list string) :
  get_cl_args args unknown_cli = Ok out →
  ∃ known,
    get_cl_args args [] = Ok known ∧ out = known ++ unknown_cli ∧
    Forall (λ a, ∃ flag rest, a = flag +:+ rest ∧
                 flag ∈ ["-a"; "-g"; "-l"; "-p"; "-r"; "-t"; "-x"]) known.
Proof.
  unfold get_cl_args. intros (all_a & Ha & (all_p & Hp & [= <-])%bind_Ok)%bind_Ok.
  rewrite Ha, Hp. cbn [mbind result_bind rbind]. eexists. split; [done|].
  rewrite !app_nil_r. split; [by rewrite <- !app_assoc|].
  apply glued_first_tokens_flag in Ha, Hp.
  repeat (apply Forall_app; split).
  - eapply Forall_impl; [exact Ha|]. intros a [rest ->]. exists "-a", rest.
    split; [done|]. apply list_elem_of_here.
  - destruct (arg_g args); constructor; [|constructor]. exists "-g", "".
    split; [done|]. do 1 apply list_elem_of_further. apply list_elem_of_here.
  - destruct (arg_l args) as [l|]; constructor; [|constructor]. exists "-l", l.
    split; [done|]. do 2 apply list_elem_of_further. apply list_elem_of_here.
  - eapply Forall_impl; [exact Hp|]. intros a [rest ->]. exists "-p", rest.
    split; [done|]. do 3 apply list_elem_of_further. apply list_elem_of_here.
  - case_bool_decide; constructor; [|constructor]. exists "-r", (arg_r args).
    split; [done|]. do 4 apply list_elem_of_further. apply list_elem_of_here.
  - destruct (arg_t args) as [t|]; constructor; [|constructor]. exists "-t", (pretty t).
    split; [done|]. do 5 apply list_elem_of_further. apply list_elem_of_here.
  - destruct (arg_x args) as [x|]; constructor; [|constructor]. exists "-x", (pretty x).
    split; [done|]. do 6 apply list_elem_of_further. apply list_elem_of_here.
Qed.

Lemma get_cl_args_forwards_unknown_witness :
  get_cl_args (sample_args true false) ["-c"; "conf.yml"]
    = Ok ["-acar:localhost"; "-abike:10.0.0.2"; "-g"; "-l2.5"; "-pcar:5001"; "-rosrm";
          "-t4"; "-x5"; "-c"; "conf.yml"] ∧
  ∃ known,
    get_cl_args (sample_args true false) [] = Ok known ∧
    ["-acar:localhost"; "-abike:10.0.0.2"; "-g"; "-l2.5"; "-pcar:5001"; "-rosrm";
     "-t4"; "-x5"; "-c"; "conf.yml"] = known ++ ["-c"; "conf.yml"] ∧
    Forall (λ a, ∃ flag rest, a = flag +:+ rest ∧
                 flag ∈ ["-a"; "-g"; "-l"; "-p"; "-r"; "-t"; "-x"]) known.
Proof.
  assert (get_cl_args (sample_args true false) ["-c"; "conf.yml"]
          = Ok ["-acar:localhost"; "-abike:10.0.0.2"; "-g"; "-l2.5"; "-pcar:5001";
                "-rosrm"; "-t4"; "-x5"; "-c"; "conf.yml"]) as H
    by (vm_compute; reflexivity).
  split; [exact H|].
  exact (get_cl_args_forwards_unknown (sample_args true false) ["-c"; "conf.yml"] _ H).
Defined.

(** X24: splitting a [profile:value] token at the colons and unpacking two
    parts succeeds exactly when the token holds one colon; it then returns
    the text before and the text after the colon, and gluing them back with
    a colon gives the token.  With no colon, or more than one, the
    unpacking raises [ValueError].  The split itself gives one part more
    than there are colons. *)
Theorem split_pair_round_trip (token : string) :
  (∀ a b, split_pair token = Ok (a, b) ↔
          token = a +:+ ":" +:+ b ∧
          count_char ":" a = 0%nat ∧ count_char ":" b = 0%nat) ∧
  (split_pair token = Raise ValueError ↔ count_char ":" token ≠ 1%nat) ∧
  ((∃ pv, split_pair token = Ok pv) ↔ count_char ":" token = 1%nat) ∧
  length (split_on ":" token) = S (count_char ":" token).
Proof.
  split_and!.
  - apply split_pair_Ok.
  - apply split_pair_error.
  - pose proof (split_pair_error token) as Herr.
    destruct (split_pair_cases token) as [[pv Hpv]|Hraise].
    + split; [|eauto]. intros _.
      destruct (decide (count_char ":" token = 1%nat)) as [|Hne]; [done|].
      apply Herr in Hne. congruence.
    + split; [intros [pv Hpv]; congruence|]. intros Hone.
      apply Herr in Hraise. done.
  - apply split_on_length.
Qed.

Lemma bind_Raise {A B} (m : result A) (k : A → result B) e :
  m ≫= k = Raise e → m = Raise e ∨ ∃ a, m = Ok a ∧ k a = Raise e.
Proof. destruct m as [a|e'|]; simpl; [eauto| |done]. intros [= ->]. by left. Qed.

Lemma bind_Timeout {A B} (m : result A) (k : A → result B) :
  m ≫= k = Timeout → m = Timeout ∨ ∃ a, m = Ok a ∧ k a = Timeout.
Proof. destruct m as [a|e'|]; simpl; [eauto|done|]. by left. Qed.

Lemma entry_of_is_Some g :
  is_Some (entry_of g) ↔ ∃ token rest, g = token :: rest ∧ count_char ":" token = 1%nat.
Proof.
  unfold entry_of. destruct g as [|token rest].
  - split; [by intros [? ?]|by intros (? & ? & ? & _)].
  - pose proof (split_pair_error token) as Herr.
    destruct (split_pair_cases token) as [[pv Hpv]|Hraise].
    + rewrite Hpv. split; [|by eexists]. intros _. exists token, rest. split; [done|].
      destruct (decide (count_char ":" token = 1%nat)) as [|Hne]; [done|].
      apply Herr in Hne. congruence.
    + rewrite Hraise. split; [by intros [? ?]|].
      intros (? & ? & [= <- <-] & Hone). by apply Herr in Hraise.
Qed.

Lemma add_entries_Ok_iff put groups m :
  (∃ m', add_entries put groups m = Ok m') ↔ Forall (λ g, is_Some (entry_of g)) groups.
Proof.
  revert m. induction groups as [|g groups IH]; intros m; simpl.
  - split; [constructor|eauto].
  - split.
    + intros (m' & (token & Htok & ([pf v] & Hpv & Hrest)%bind_Ok)%bind_Ok).
      constructor; [|apply (IH (put pf v m)); eauto].
      destruct g; [done|]. simpl in *. injection Htok as ->. rewrite Hpv. by eexists.
    + intros [[[pf v] Hg] Hall]%Forall_cons.
      destruct g as [|token rest]; [done|]. simpl in *.
      destruct (split_pair token) as [pv| |]; [|done|done]. injection Hg as ->.
      simpl. by apply IH.
Qed.

Lemma add_entries_Raise put groups m e :
  add_entries put groups m = Raise e → e = IndexError ∨ e = ValueError.
Proof.
  revert m. induction groups as [|g groups IH]; intros m; simpl; [done|].
  destruct g as [|token rest]; simpl; [intros [= <-]; by left|].
  destruct (split_pair_cases token) as [[[pf v] ->]| ->]; simpl.
  - apply IH.
  - intros [= <-]. by right.
Qed.

Lemma add_entries_not_Timeout put groups m : add_entries put groups m ≠ Timeout.
Proof.
  revert m. induction groups as [|g groups IH]; intros m; simpl; [done|].
  destruct g as [|token rest]; simpl; [done|].
  destruct (split_pair_cases token) as [[[pf v] ->]| ->]; simpl; [apply IH|done].
Qed.

(** X25: in the routing table the last [-a] group that names a profile gives
    its host and the last [-p] group that names it gives its port; a profile
    is in the table exactly when some group names it, with the field that no
    group sets left out; the engine is the [-r] argument.  The default
    table, profile [car] at [0.0.0.0:5000], is used exactly when no [-a]
    and no [-p] group is given. *)
Theorem get_routing_last_entry_wins (args : cli_args) (r : routing) :
  get_routing args = Ok r →
  engine r = arg_r args ∧
  ((default [] (arg_a args) = [] ∧ default [] (arg_p args) = [] ∧
    profiles r = default_profiles) ∨
   ((default [] (arg_a args) ≠ [] ∨ default [] (arg_p args) ≠ []) ∧
    ∀ profile,
      profiles r !! profile =
      match last_value profile (default [] (arg_a args)),
            last_value profile (default [] (arg_p args)) with
      | None, None => None
      | h, p => Some {| host := h; port := p |}
      end)).
Proof. apply get_routing_lookup. Qed.

Lemma get_routing_last_entry_wins_witness :
  get_routing (sample_args true false) = Ok sample_routing ∧
  profiles sample_routing !! "car"
    = Some {| host := Some "localhost"; port := Some "5001" |} ∧
  profiles sample_routing !! "bike"
    = Some {| host := Some "10.0.0.2"; port := None |} ∧
  profiles sample_routing !! "foot" = None.
Proof.
  assert (get_routing (sample_args true false) = Ok sample_routing) as H
    by (vm_compute; reflexivity).
  split; [exact H|].
  destruct (get_routing_last_entry_wins (sample_args true false) sample_routing H)
    as [_ [(Ha & _)|[_ Hlookup]]]; [discriminate Ha|].
  split_and!; [exact (Hlookup "car")|exact (Hlookup "bike")|exact (Hlookup "foot")].
Defined.

(** X26: building the routing table succeeds exactly when every [-a] and
    every [-p] group starts with a token that holds one colon; otherwise it
    raises [ValueError] (a token with no colon or several) or [IndexError]
    (a group without token), and nothing else. *)
Theorem get_routing_succeeds_iff (args : cli_args) :
  ((∃ r, get_routing args = Ok r) ↔
   Forall (λ g, ∃ token rest, g = token :: rest ∧ count_char ":" token = 1%nat)
     (default [] (arg_a args) ++ default [] (arg_p args))) ∧
  (∀ e, get_routing args = Raise e → e = IndexError ∨ e = ValueError) ∧
  get_routing args ≠ Timeout.
Proof.
  unfold get_routing. split_and!.
  - rewrite Forall_app.
    rewrite <- !(Forall_iff _ _ _ entry_of_is_Some).
    rewrite <- (add_entries_Ok_iff put_host _ ∅).
    split.
    + intros (r & (ma & Hma & (mp & Hmp & _)%bind_Ok)%bind_Ok).
      split; [eauto|]. apply (add_entries_Ok_iff put_port _ ma). eauto.
    + intros [[ma Hma] Hp]. apply (add_entries_Ok_iff put_port _ ma) in Hp as [mp Hmp].
      rewrite Hma. cbn [mbind result_bind rbind]. rewrite Hmp.
      cbn [mbind result_bind rbind]. eauto.
  - intros e [Ha|(ma & _ & [Hp|(mp & _ & Hr)]%bind_Raise)]%bind_Raise.
    + by eapply add_entries_Raise.
    + by eapply add_entries_Raise.
    + discriminate Hr.
  - intros [Ha|(ma & _ & [Hp|(mp & _ & Hr)]%bind_Timeout)]%bind_Timeout.
    + by eapply add_entries_not_Timeout.
    + by eapply add_entries_not_Timeout.
    + discriminate Hr.
Qed.

Lemma main_search_mode solve_with add_matrix fuel args unknown data has_matrices r :
  main_search solve_with add_matrix fuel args unknown data has_matrices = Ok r →
  match r with
  | Front _ => arg_pareto_front args || arg_pareto_front_more_solutions args = true
  | Best best =>
      arg_pareto_front args || arg_pareto_front_more_solutions args = false ∧
      origin best = None ∧ computing_times (summary best) = None
  end.
Proof.
  unfold main_search.
  intros (data' & _ & (cl_args & _ & Hrun)%bind_Ok)%bind_Ok.
  apply solve_asap_Ok in Hrun
    as (pool & sorted & fd & res & _ & _ & _ & [[Hm ->]|[Hm (best & tl & _ & ->)]]);
    cbn [return_pareto_front] in Hm; done.
Qed.



(** X28: the wrapper writes a solution only in single-solution mode: the
    written solution is the best solution of a search that succeeded, it
    carries neither an origin nor computing times, and the exit status is
    its status code, zero when it has none. *)
Theorem main_writes_best_only
    (solve_with : list string → instance → solution)
    (add_matrix : instance → routing → result instance)
    (fuel : nat) (args : cli_args) (unknown : list string) (data : instance)
    (has_matrices : bool) (s : solution) (c : Z) :
  main solve_with add_matrix fuel args unknown data has_matrices
    = Some {| out_written := WriteSolution s; out_exit := c |} →
  arg_pareto_front args = false ∧ arg_pareto_front_more_solutions args = false ∧
  main_search solve_with add_matrix fuel args unknown data has_matrices = Ok (Best s) ∧
  origin s = None ∧ computing_times (summary s) = None ∧
  c = default 0 (code s).
Proof.
  unfold main.
  destruct (main_search solve_with add_matrix fuel args unknown data has_matrices)
    as [[front|best]|e|] eqn:Hs; [done| |done|done].
  intros [= <- <-]. apply main_search_mode in Hs as (Hmode & Ho & Hc).
  apply orb_false_iff in Hmode as [? ?]. done.
Qed.

Lemma main_writes_best_only_witness :
  main stub_solve_with stub_add_matrix 20 (sample_args false false) ["-c"; "conf.yml"]
    sample_instance false
  = Some {| out_written := WriteSolution sample_best; out_exit := 0 |} ∧
  origin sample_best = None ∧ computing_times (summary sample_best) = None ∧
  0 = default 0 (code sample_best).
Proof.
  assert (main stub_solve_with stub_add_matrix 20 (sample_args false false)
            ["-c"; "conf.yml"] sample_instance false
          = Some {| out_written := WriteSolution sample_best; out_exit := 0 |}) as H
    by (vm_compute; reflexivity).
  split; [exact H|].
  exact (proj2 (proj2 (proj2
           (main_writes_best_only stub_solve_with stub_add_matrix 20
              (sample_args false false) ["-c"; "conf.yml"] sample_instance false
              sample_best 0 H)))).
Defined.

(** ** What is returned first *)

(** X29: a member of the pool that ends strictly earlier than every other
    member is what [solve_asap] returns first, as the single best solution
    or at the head of the frontier, whether or not it routes every job.
    The last probe of the backward sweep, which leaves jobs unassigned, is
    returned this way when it ends earliest. *)
Theorem strictly_earliest_member_is_returned_first
    (solve : instance → solution) (fuel : nat) (p : problem) (r : response)
    (rest more : list solution) (j : nat) (x : solution) (cx : Z) :
  solve_asap solve fuel p = Ok r →
  dichotomy solve (p_instance p) (solve (p_instance p))
    = Ok (set_origin (Some Initial) (solve (p_instance p)) :: rest) →
  (if pareto_front_more_solution p
   then backward_search solve fuel (p_instance p) (solve (p_instance p)) = Ok more
   else more = []) →
  (set_origin (Some Initial) (solve (p_instance p)) :: rest ++ more) !! j = Some x →
  completion_time x = Ok cx →
  (∀ i y cy, i ≠ j →
     (set_origin (Some Initial) (solve (p_instance p)) :: rest ++ more) !! i = Some y →
     completion_time y = Ok cy → cx < cy) →
  match r with
  | Front front => ∃ tl, front = strip_origin x :: tl
  | Best best => best = strip_computing_times (strip_origin x)
  end.
Proof.
  intros Hrun Hd Hmore Hx Hcx Hmin.
  destruct (solve_asap_stages _ _ _ _ Hrun)
    as (_ & _ & rest' & more' & sorted & fd & res & Hd' & _ & Hmore' & Hsort &
        Hfd & Hres & Hr).
  rewrite Hd in Hd'. injection Hd' as <-.
  assert (more' = more) as ->.
  { destruct (pareto_front_more_solution p); [|by subst].
    rewrite Hmore in Hmore'. by injection Hmore'. }
  destruct (sort_by_completion_sorted _ _ Hsort) as (cts & Hcts & Hs).
  destruct (sort_by_completion_head _ _ Hsort) as (h & t & ->); [done|].
  destruct (reduced_head _ _ _ _ _ _ Hcts Hs Hfd Hres eq_refl) as [tl ->].
  destruct (sorted_head_least _ _ _ Hcts Hs) as (ch & Hch & Hleast).
  pose proof (sort_by_completion_perm _ _ Hsort) as Hperm.
  assert (h = x) as ->.
  { assert (h ∈ set_origin (Some Initial) (solve (p_instance p)) :: rest ++ more) as Hh
      by (rewrite <- Hperm; by left).
    apply list_elem_of_lookup_1 in Hh as [i Hi].
    destruct (decide (i = j)) as [->|Hne]; [congruence|].
    pose proof (Hmin i h ch Hne Hi Hch) as Hlt.
    assert (ch ≤ cx); [|lia]. apply (Hleast x); [|done].
    rewrite Hperm. by eapply list_elem_of_lookup_2. }
  destruct Hr as [[_ ->]|[_ (best & tl' & [= <- <-] & ->)]]; [|done].
  rewrite fmap_cons. eauto.
Qed.

Lemma strictly_earliest_member_is_returned_first_witness :
  solve_asap (stub_solve 40 30) 20 (sample_problem true true) = Ok (Front sample_front) ∧
  ¬ fully_routed (set_origin (Some BackwardSearch) (point 29 171 1)) ∧
  ∃ tl, sample_front = strip_origin (set_origin (Some BackwardSearch) (point 29 171 1)) :: tl.
Proof.
  assert (solve_asap (stub_solve 40 30) 20 (sample_problem true true)
          = Ok (Front sample_front)) as H by (vm_compute; reflexivity).
  split; [exact H|]. split; [vm_compute; discriminate|].
  apply (strictly_earliest_member_is_returned_first (stub_solve 40 30) 20
           (sample_problem true true) (Front sample_front) sample_probes sample_more
           13 (set_origin (Some BackwardSearch) (point 29 171 1)) 29 H).
  - vm_compute; reflexivity.
  - vm_compute; reflexivity.
  - vm_compute; reflexivity.
  - reflexivity.
  - intros i y cy Hi Hy Hcy.
    do 14 (destruct i as [|i];
           [first [vm_compute in Hy; injection Hy as <-;
                   vm_compute in Hcy; injection Hcy as <-; lia
                  |exfalso; apply Hi; reflexivity]|]).
    vm_compute in Hy. discriminate Hy.
Defined.
